(** * hono-client-query: the proxy resolution engine of [src/index.ts]

    A shallow embedding of the runtime part of [src/index.ts] (the error
    class, the mutation hook factory, the proxy handlers and the utils
    proxy) together with [src/Context.tsx], and the properties of the
    specification that are about them.

    Conventions of the model.
    - JavaScript values are the inductive [JsValue]; an object is a plain
      object, given by the finite map of its own properties, with the
      standard [Object.prototype] behind it; numbers are the integers.
    - The transport client is a tree of plain objects whose leaves are
      callables.
    - [async] code runs in the monad [M]: an exception or a rejected promise
      is [Thrown], and every call into the transport or into the store is
      recorded, in order, in a trace of [Event]s.
    - Where the code goes on into the runtime itself (a name inherited from
      a standard prototype, the rendering of a number beyond the safe
      integers) the model does not follow it: the outcome is [Unmodelled],
      and no property below speaks of such a run beyond its trace.
    - Closures created by the proxies are Rocq functions closed over the
      client and the path. *)

From Stdlib Require Import Ascii String.
From stdpp Require Import base option list strings gmap pretty.

Set Warnings "-register-all".
Open Scope string_scope.
Open Scope list_scope.

(** ** JavaScript values *)

Inductive JsValue : Type :=
| JUndefined
| JNull
| JBool (b : bool)
| JNum (n : Z)
| JStr (s : string)
| JArr (elems : list JsValue)
| JObj (props : gmap string JsValue).

(** [Boolean(v)]: the values that are falsy are [undefined], [null],
    [false], [0] and the empty string. *)
Definition truthy (v : JsValue) : bool :=
  match v with
  | JUndefined | JNull => false
  | JBool b => b
  | JNum n => negb (n =? 0)%Z
  | JStr s => negb (String.eqb s "")
  | JArr _ | JObj _ => true
  end.

(** [a || b] *)
Definition js_or (a b : JsValue) : JsValue := if truthy a then a else b.

(** [a ?? b] *)
Definition nullish (a b : JsValue) : JsValue :=
  match a with
  | JUndefined | JNull => b
  | _ => a
  end.

(** [v?.[k]]: reading property [k] with optional chaining.  Only objects
    carry named properties in the model; the engine reads [message] and
    [query], which no primitive, string or array has. *)
Definition opt_get (v : JsValue) (k : string) : JsValue :=
  match v with
  | JObj props => default JUndefined (props !! k)
  | _ => JUndefined
  end.

(** The characters of a string, each as a one-character string. *)
Fixpoint chars (s : string) : list string :=
  match s with
  | EmptyString => []
  | String c rest => String c EmptyString :: chars rest
  end.

(** The own enumerable properties of an indexed collection:
    ["0"], ["1"], ... *)
Definition indexed (l : list JsValue) : gmap string JsValue :=
  list_to_map (imap (fun i x => (pretty i, x)) l).

(** The properties copied by an object spread [{...v}]: nothing for
    [undefined], [null], booleans and numbers, the indexed elements of a
    string or an array, the own properties of an object. *)
Definition spread (v : JsValue) : gmap string JsValue :=
  match v with
  | JUndefined | JNull | JBool _ | JNum _ => ∅
  | JStr s => indexed (JStr <$> chars s)
  | JArr elems => indexed elems
  | JObj props => props
  end.

(** ** Strings *)

(** [s.startsWith(prefix)] *)
Definition startsWith (s prefix : string) : bool := String.prefix prefix s.

(** [segments.join(sep)] *)
Definition join (sep : string) (segments : list string) : string :=
  String.concat sep segments.

Definition lower_ascii (c : ascii) : ascii :=
  let n := nat_of_ascii c in
  if Nat.leb 65 n && Nat.leb n 90 then ascii_of_nat (n + 32) else c.

(** [s.toLowerCase()] on ASCII letters. *)
Fixpoint toLowerCase (s : string) : string :=
  match s with
  | EmptyString => EmptyString
  | String c rest => String (lower_ascii c) (toLowerCase rest)
  end.

(** ** Responses and errors *)

(** A transport response: the success flag, the status, and the outcome of
    [res.json()], [None] when parsing the body rejects. *)
Record Response : Type := {
  ok : bool;
  status : Z;
  statusText : string;
  json : option JsValue
}.

(** [class HonoQueryError extends Error] *)
Record HonoQueryError : Type := {
  name : string;
  message : string;
  response : Response;
  data : JsValue
}.

(** What can be thrown. [TypeError] is the runtime's own (reading a
    property of [undefined], [in] on a non-object, calling a non-function),
    [SyntaxError] the rejection of [res.json()], [Error] a plain
    [new Error(message)]. *)
Inductive Exn : Type :=
| TypeError
| SyntaxError
| Error (msg : string)
| RequestError (e : HonoQueryError).

(** ** Effects: exceptions and the trace of external calls *)

(** What the engine does to its two collaborators, in the order it does it:
    invoking a transport callable (the callable's key and its argument),
    [queryClient.invalidateQueries({ queryKey })], and whatever a callback
    supplied by the caller chooses to record. *)
Inductive Event : Type :=
| EvRequest (method : string) (input : JsValue)
| EvInvalidate (queryKey : list JsValue)
| EvCallback (label : string) (args : list JsValue).

(** How a run ends: with a value, with an exception, or outside the model
    (see the conventions above). *)
Inductive Outcome (A : Type) : Type :=
| Returned (a : A)
| Thrown (e : Exn)
| Unmodelled.
Arguments Returned {A} a.
Arguments Thrown {A} e.
Arguments Unmodelled {A}.

Definition M (A : Type) : Type := list Event -> Outcome A * list Event.

#[global] Instance M_ret : MRet M := fun A a t => (Returned a, t).

#[global] Instance M_bind : MBind M := fun A B f m t =>
  match m t with
  | (Returned a, t') => f a t'
  | (Thrown e, t') => (Thrown e, t')
  | (Unmodelled, t') => (Unmodelled, t')
  end.

Definition throw {A : Type} (e : Exn) : M A := fun t => (Thrown e, t).

(** A step that has no effect on the trace. *)
Definition lift {A : Type} (o : Outcome A) : M A := fun t => (o, t).

(** [m.catch(handler)] *)
Definition catch {A : Type} (m : M A) (handler : Exn -> M A) : M A := fun t =>
  match m t with
  | (Returned a, t') => (Returned a, t')
  | (Thrown e, t') => handler e t'
  | (Unmodelled, t') => (Unmodelled, t')
  end.

(** ** String conversion and the error constructor *)

(** The integers that JavaScript renders digit for digit:
    up to [Number.MAX_SAFE_INTEGER] in absolute value. *)
Definition safe_integer (n : Z) : bool := (Z.abs n <=? 9007199254740991)%Z.

(** All the outcomes of a list, in order, or the first that is not a
    value. *)
Fixpoint sequence {A : Type} (l : list (Outcome A)) : Outcome (list A) :=
  match l with
  | [] => Returned []
  | o :: rest =>
      match o with
      | Returned a =>
          match sequence rest with
          | Returned l' => Returned (a :: l')
          | Thrown e => Thrown e
          | Unmodelled => Unmodelled
          end
      | Thrown e => Thrown e
      | Unmodelled => Unmodelled
      end
  end.

(** [String(v)], as the [Error] constructor applies it to its message.
    A safe integer is written in decimal.  An array is joined with commas,
    its [null] and [undefined] elements rendered empty, the others
    converted in turn.  A plain object is ["[object Object]"] by the
    inherited [toString], unless it has an own property [toString]: that
    one, a value, cannot be called, the inherited [valueOf] returns the
    object itself, and the conversion throws [TypeError]. *)
Fixpoint toString (v : JsValue) : Outcome string :=
  match v with
  | JUndefined => Returned "undefined"
  | JNull => Returned "null"
  | JBool true => Returned "true"
  | JBool false => Returned "false"
  | JNum n => if safe_integer n then Returned (pretty n) else Unmodelled
  | JStr s => Returned s
  | JArr elems =>
      match sequence
              (map (fun x => match x with
                             | JUndefined | JNull => Returned ""
                             | _ => toString x
                             end) elems) with
      | Returned parts => Returned (String.concat "," parts)
      | Thrown e => Thrown e
      | Unmodelled => Unmodelled
      end
  | JObj props =>
      match props !! "toString" with
      | None => Returned "[object Object]"
      | Some _ => Thrown TypeError
      end
  end.

(** [new HonoQueryError(res, data)]: the message handed to [Error], and
    converted by it, is [data?.message || res.statusText]; the constructor
    throws when the conversion does. *)
Definition newHonoQueryError (res : Response) (data : JsValue) : Outcome HonoQueryError :=
  match toString (js_or (opt_get data "message") (JStr (statusText res))) with
  | Returned text =>
      Returned {| name := "HonoQueryError";
                  message := text;
                  response := res;
                  data := data |}
  | Thrown e => Thrown e
  | Unmodelled => Unmodelled
  end.

Definition emit (e : Event) : M unit := fun t => (Returned tt, t ++ [e]).

(** ** The transport client *)

(** The object graph of the transport: a plain object with named own
    properties, a callable (which resolves to a response or rejects), or
    [undefined]. *)
Inductive Transport : Type :=
| TUndefined
| TObject (props : gmap string Transport)
| TCallable (call : JsValue -> Exn + Response).

(** The names every plain object inherits from the standard
    [Object.prototype]. *)
Definition objectPrototypeNames : list string :=
  ["constructor"; "__defineGetter__"; "__defineSetter__"; "hasOwnProperty";
   "__lookupGetter__"; "__lookupSetter__"; "isPrototypeOf";
   "propertyIsEnumerable"; "toString"; "valueOf"; "__proto__"; "toLocaleString"].

(** The names a function can answer to: its own and those inherited from
    the standard [Function.prototype] and [Object.prototype]. *)
Definition functionNames : list string :=
  ["length"; "name"; "prototype"; "arguments"; "caller"; "apply"; "bind"; "call"]
    ++ objectPrototypeNames.

Definition unmodelled {A : Type} : M A := fun t => (Unmodelled, t).

(** [acc[p]]: reading a property of [undefined] throws; an object gives its
    own property; a name that is not an own property is [undefined], unless
    the object or the callable inherits it from the runtime, where the model
    stops. *)
Definition index (acc : Transport) (p : string) : M Transport :=
  match acc with
  | TUndefined => throw TypeError
  | TObject props =>
      match props !! p with
      | Some v => mret v
      | None => if bool_decide (p ∈ objectPrototypeNames) then unmodelled
                else mret TUndefined
      end
  | TCallable _ =>
      if bool_decide (p ∈ functionNames) then unmodelled else mret TUndefined
  end.

(** [path.reduce((acc, p) => acc[p], client)] *)
Fixpoint reduce (path : list string) (acc : Transport) : M Transport :=
  match path with
  | [] => mret acc
  | p :: rest => next ← index acc p; reduce rest next
  end.

(** [key in rpc]: throws on [undefined]; an object has its own names and
    those of [Object.prototype]; of a callable the model knows the names it
    does not have. *)
Definition has_in (key : string) (rpc : Transport) : M bool :=
  match rpc with
  | TUndefined => throw TypeError
  | TObject props =>
      mret (match props !! key with
            | Some _ => true
            | None => bool_decide (key ∈ objectPrototypeNames)
            end)
  | TCallable _ =>
      if bool_decide (key ∈ functionNames) then unmodelled else mret false
  end.

(** [await rpc[key](input)]: calling what is not a function throws;
    the call itself is recorded, and may reject. *)
Definition invoke (rpc : Transport) (key : string) (input : JsValue) : M Response :=
  f ← index rpc key;
  match f with
  | TCallable call =>
      emit (EvRequest key input);;
      match call input with
      | inl e => throw e
      | inr res => mret res
      end
  | _ => throw TypeError
  end.

(** [await res.json()] *)
Definition res_json (res : Response) : M JsValue :=
  match json res with
  | Some v => mret v
  | None => throw SyntaxError
  end.

(** The statements that end each of the three fetch functions
    (index.ts 150-156, 195-201, 228-234):
    [if (!res.ok) { const errorData = await res.json().catch(() =>
    ({ message: res.statusText })); throw new HonoQueryError(res, errorData); }
    return res.json();] *)
Definition unwrap (res : Response) : M JsValue :=
  if negb (ok res) then
    errorData ← catch (res_json res)
                  (fun _ => mret (JObj {[ "message" := JStr (statusText res) ]}));
    e ← lift (newHonoQueryError res errorData);
    throw (RequestError e)
  else res_json res.

(** ** The store's hook arguments *)

Definition Callback : Type := JsValue -> JsValue -> JsValue -> M unit.

(** [queryClient.invalidateQueries({ queryKey })] *)
Definition invalidateQueries (queryKey : list JsValue) : M unit :=
  emit (EvInvalidate queryKey).

(** The object handed to the store's [useMutation]. *)
Module UseMutation.
Record options : Type := {
  mutationFn : JsValue -> M JsValue;
  onSuccess : Callback
}.
End UseMutation.

(** The object handed to the store's [useQuery]. *)
Module UseQuery.
Record options : Type := {
  queryKey : list JsValue;
  queryFn : M JsValue
}.
End UseQuery.

(** The object handed to the store's [useInfiniteQuery]; its fetch function
    receives [{ pageParam }]. *)
Module UseInfiniteQuery.
Record options : Type := {
  queryKey : list JsValue;
  queryFn : JsValue -> M JsValue
}.
End UseInfiniteQuery.

(** ** Context.tsx *)

(** [useHonoQueryContext()]: throws outside a [HonoQueryProvider]. *)
Definition useHonoQueryContext (provided : bool) : M unit :=
  if provided then mret tt
  else throw (Error "useHonoQueryContext must be used within a HonoQueryProvider").

(** ** createMethodMutation *)

(** The [mutationFn] closure of [createMethodMutation(client, path, method)]. *)
Definition createMethodMutation_mutationFn
    (client : Transport) (path : list string) (method : string)
    (variables : JsValue) : M JsValue :=
  rpc ← reduce path client;
  let honoMethod := "$" +:+ toLowerCase method in
  has ← has_in honoMethod rpc;
  if negb has then
    throw (Error ("Method " +:+ method +:+ " not found for endpoint: " +:+ join "." path))
  else
    res ← invoke rpc honoMethod variables;
    unwrap res.

(** [onSuccess?.(data, variables, context)] *)
Definition optional_call (callerOnSuccess : option Callback)
    (data variables context : JsValue) : M unit :=
  match callerOnSuccess with
  | Some f => f data variables context
  | None => mret tt
  end.

(** [path.slice(0, -1)] *)
Definition slice_0_neg1 (path : list string) : list string :=
  take (length path - 1) path.

(** The [onSuccess] closure of [createMethodMutation]; [callerOnSuccess] is
    the [onSuccess] taken out of the caller's options. *)
Definition createMethodMutation_onSuccess
    (path : list string) (callerOnSuccess : option Callback)
    (data variables context : JsValue) : M unit :=
  let lastSegment :=
    if bool_decide (0 < length path)
    then default "" (path !! (length path - 1)) else "" in
  let isResourceMutation := startsWith lastSegment ":" in
  let collectionPath := if isResourceMutation then slice_0_neg1 path else path in
  invalidateQueries (JStr <$> collectionPath);;
  (if isResourceMutation then invalidateQueries (JStr <$> path) else mret tt);;
  optional_call callerOnSuccess data variables context.

(** [createMethodMutation(client, path, method)]: the hook; [provided]
    tells whether a provider encloses the caller, [callerOnSuccess] is the
    caller's [options.onSuccess].  The caller's other options, which the
    hook spreads unchanged into what it hands to the store, are the store's
    business and have no part in the model. *)
Definition createMethodMutation
    (client : Transport) (path : list string) (method : string)
    (provided : bool) (callerOnSuccess : option Callback) : M UseMutation.options :=
  useHonoQueryContext provided;;
  mret {| UseMutation.mutationFn := createMethodMutation_mutationFn client path method;
          UseMutation.onSuccess := createMethodMutation_onSuccess path callerOnSuccess |}.

(** ** proxyHandlers *)

(** The hook returned for [useQuery]. *)
Definition useQuery (client : Transport) (path : list string)
    (input : JsValue) : UseQuery.options :=
  {| UseQuery.queryKey := (JStr <$> path) ++ [input];
     UseQuery.queryFn :=
       rpc ← reduce path client;
       res ← invoke rpc "$get" input;
       unwrap res |}.

(** [{ ...input, query: { ...(input?.query ?? {}), page: pageParam } }] *)
Definition finalInput (input pageParam : JsValue) : JsValue :=
  JObj (<["query" :=
            JObj (<["page" := pageParam]>
                    (spread (nullish (opt_get input "query") (JObj ∅))))]>
          (spread input)).

(** The hook returned for [useInfiniteQuery]. *)
Definition useInfiniteQuery (client : Transport) (path : list string)
    (input : JsValue) : UseInfiniteQuery.options :=
  {| UseInfiniteQuery.queryKey := (JStr <$> path) ++ [input];
     UseInfiniteQuery.queryFn := fun pageParam =>
       rpc ← reduce path client;
       res ← invoke rpc "$get" (finalInput input pageParam);
       unwrap res |}.

(** A proxy is determined by the client and the path it closes over. *)
Record Proxy : Type := {
  proxy_client : Transport;
  proxy_path : list string
}.

Definition createHonoQueryProxy (client : Transport) (path : list string) : Proxy :=
  {| proxy_client := client; proxy_path := path |}.

(** The type of [createMethodMutation(client, path, method)]. *)
Definition MutationHook : Type := bool -> option Callback -> M UseMutation.options.

(** What a property access on a proxy evaluates to.  [PMethodProxy] is the
    inner proxy of a mutating method, given by its own [get] handler. *)
Inductive Property : Type :=
| PUndefined
| PUseQuery (hook : JsValue -> UseQuery.options)
| PUseInfiniteQuery (hook : JsValue -> UseInfiniteQuery.options)
| PMethodProxy (get : string -> option MutationHook)
| PProxy (p : Proxy).

(** [array.includes(x)] *)
Definition includes (array : list string) (x : string) : bool :=
  existsb (String.eqb x) array.

(** The [get] handler of [proxyHandlers(client, path)]. *)
Definition proxyHandlers_get (client : Transport) (path : list string)
    (property : string) : M Property :=
  if String.eqb property "useQuery" then
    mret (PUseQuery (useQuery client path))
  else if String.eqb property "useInfiniteQuery" then
    mret (PUseInfiniteQuery (useInfiniteQuery client path))
  else if includes ["post"; "put"; "patch"; "delete"] property then
    rpc ← reduce path client;
    let honoMethod := "$" +:+ property in
    has ← has_in honoMethod rpc;
    if (has : bool) then
      mret (PMethodProxy (fun hookProperty =>
              if String.eqb hookProperty "useMutation"
              then Some (createMethodMutation client path property)
              else None))
    else mret PUndefined
  else if startsWith property "$" then mret PUndefined
  else mret (PProxy (createHonoQueryProxy client (path ++ [property]))).

(** A property access on a proxy. *)
Definition proxy_get (p : Proxy) (property : string) : M Property :=
  proxyHandlers_get (proxy_client p) (proxy_path p) property.

(** ** createUtilsProxy *)

(** A utils proxy is determined by its path (the query client is the
    store, whose calls the trace records). *)
Inductive UtilsProperty : Type :=
| UInvalidate (invalidate : M unit)
| UProxy (path : list string).

(** The [get] handler of [createUtilsProxy(queryClient, path)]. *)
Definition createUtilsProxy_get (path : list string) (property : string) : UtilsProperty :=
  if String.eqb property "invalidate" then
    UInvalidate (invalidateQueries (JStr <$> path))
  else UProxy (path ++ [property]).

(** ** The store, as far as the engine relies on it *)

(** The store is an external library; these are the steps of its contract
    that drive the closures above. *)
Module Store.

(** [mutate(variables)]: the mutation function runs; once it has resolved,
    [onSuccess] is called with the data, the variables and the context of
    the mutation.  A rejection skips [onSuccess]. *)
Definition mutate (o : UseMutation.options) (variables context : JsValue) : M JsValue :=
  data ← UseMutation.mutationFn o variables;
  UseMutation.onSuccess o data variables context;;
  mret data.

(** A page request: the fetch function is called with the page cursor. *)
Definition fetchPage (o : UseInfiniteQuery.options) (pageParam : JsValue) : M JsValue :=
  UseInfiniteQuery.queryFn o pageParam.

(** The request for the page after [lastPage]: its cursor is what the
    caller's [getNextPageParam] extracts from [lastPage]. *)
Definition fetchNextPage (o : UseInfiniteQuery.options)
    (getNextPageParam : JsValue -> JsValue) (lastPage : JsValue) : M JsValue :=
  fetchPage o (getNextPageParam lastPage).

(** The first two page requests of a paged query: the first with the
    initial cursor, the second with the cursor extracted from the first
    page. *)
Definition fetchTwoPages (o : UseInfiniteQuery.options)
    (initialPageParam : JsValue) (getNextPageParam : JsValue -> JsValue)
  : M (list JsValue) :=
  first ← fetchPage o initialPageParam;
  second ← fetchNextPage o getNextPageParam first;
  mret [first; second].

End Store.

(** ** Reading traces *)

(** The query keys invalidated in a trace, in the order of the calls. *)
Definition invalidated (t : list Event) : list (list JsValue) :=
  omap (fun e => match e with EvInvalidate k => Some k | _ => None end) t.

(** The invalidation set of a mutation at [path]: the keys the engine's
    [onSuccess] hands to the store, the caller supplying no callback. *)
Definition invalidationSet (path : list string) (data variables context : JsValue)
  : list (list JsValue) :=
  invalidated (createMethodMutation_onSuccess path None data variables context []).2.

(** A caller's callback that only records its arguments. *)
Definition recording (label : string) : Callback :=
  fun data variables context => emit (EvCallback label [data; variables; context]).

(** ** Sample transports *)

(** A callable that answers every input with the response given. *)
Definition respond (flag : bool) (code : Z) (text : string) (body : option JsValue)
  : JsValue -> Exn + Response :=
  fun _ => inr {| ok := flag; status := code; statusText := text; json := body |}.

(** [{ $get, ":id": { $get, $patch } }] *)
Definition blog_posts : gmap string Transport :=
  {[
    "$get" := TCallable (respond true 200 "OK" (Some (JArr [])));
    ":id" := TObject {[
      "$get" := TCallable (respond true 200 "OK" (Some (JObj {[ "id" := JStr "1" ]})));
      "$patch" := TCallable (respond true 200 "OK" (Some (JObj {[ "title" := JStr "x" ]})))
    ]}
  ]}.

(** [{ posts: { $get, ":id": { $get, $patch } } }] *)
Definition blog : Transport := TObject {[ "posts" := TObject blog_posts ]}.

(** [{ param: { id: "1" }, json: { title: "x" } }] *)
Definition patch_input : JsValue :=
  JObj {[ "param" := JObj {[ "id" := JStr "1" ]};
          "json" := JObj {[ "title" := JStr "x" ]} ]}.

(** ** Definitions used by the statements *)

(** The options [createMethodMutation(client, path, method)] hands to the
    store, the caller's options carrying [cb] as [onSuccess]. *)
Definition mutationOptions (client : Transport) (path : list string) (method : string)
    (cb : option Callback) : UseMutation.options :=
  {| UseMutation.mutationFn := createMethodMutation_mutationFn client path method;
     UseMutation.onSuccess := createMethodMutation_onSuccess path cb |}.

(** The payload built for a response whose success flag is false
    (index.ts 151-153): the parsed body, or the object holding only the
    status text when parsing fails. *)
Definition errorData (res : Response) : JsValue :=
  match json res with
  | Some body => body
  | None => JObj {[ "message" := JStr (statusText res) ]}
  end.

(** [{ "message": { "toString": 1 } }] *)
Definition unstringifiable_body : JsValue :=
  JObj {[ "message" := JObj {[ "toString" := JNum 1 ]} ]}.

(** [{ users: { $post, $get } }], both callables answering 422 with the body
    given. *)
Definition rejecting (body : option JsValue) : Transport :=
  TObject {[
    "users" := TObject {[
      "$post" := TCallable (respond false 422 "Unprocessable Entity" body);
      "$get" := TCallable (respond false 422 "Unprocessable Entity" body)
    ]}
  ]}.


(** Structural equality of JavaScript values: the same primitive, arrays of
    the same length with structurally equal elements, objects with the same
    property names and structurally equal values under each, whatever the
    order in which the properties were written. *)
Inductive struct_eq : JsValue -> JsValue -> Prop :=
| struct_eq_undefined : struct_eq JUndefined JUndefined
| struct_eq_null : struct_eq JNull JNull
| struct_eq_bool (b : bool) : struct_eq (JBool b) (JBool b)
| struct_eq_num (n : Z) : struct_eq (JNum n) (JNum n)
| struct_eq_str (s : string) : struct_eq (JStr s) (JStr s)
| struct_eq_arr (l1 l2 : list JsValue) :
    Forall2 struct_eq l1 l2 -> struct_eq (JArr l1) (JArr l2)
| struct_eq_obj (m1 m2 : gmap string JsValue) :
    (forall k, option_Forall2 struct_eq (m1 !! k) (m2 !! k)) ->
    struct_eq (JObj m1) (JObj m2).

(** The same filter written with its two fields in either order. *)
Definition filter_ab : JsValue := JObj (<["a" := JNum 1]> (<["b" := JNum 2]> ∅)).
Definition filter_ba : JsValue := JObj (<["b" := JNum 2]> (<["a" := JNum 1]> ∅)).

(** [{ feed: { $get } }], every page answered with
    [{ items: [], nextCursor: "c2" }]. *)
Definition feed : Transport :=
  TObject {[ "feed" := TObject {[
    "$get" := TCallable (respond true 200 "OK"
                (Some (JObj {[ "items" := JArr []; "nextCursor" := JStr "c2" ]}))) ]} ]}.

(** [{ query: { limit: 10 } }] *)
Definition limit10 : JsValue := JObj {[ "query" := JObj {[ "limit" := JNum 10 ]} ]}.

(** A property name that is neither a hook trigger nor a raw transport
    method: the names the [get] handler turns into path segments. *)
Definition plain (property : string) : bool :=
  negb (String.eqb property "useQuery")
  && negb (String.eqb property "useInfiniteQuery")
  && negb (includes ["post"; "put"; "patch"; "delete"] property)
  && negb (startsWith property "$").

(** [reaches p segments q]: the chained property accesses
    [p[s1][s2]...[sn]] each yield a proxy, the last one [q]. *)
Inductive reaches : Proxy -> list string -> Proxy -> Prop :=
| reaches_nil (p : Proxy) : reaches p [] p
| reaches_cons (p q r : Proxy) (s : string) (rest : list string) (t : list Event) :
    proxy_get p s t = (Returned (PProxy q), t) ->
    reaches q rest r ->
    reaches p (s :: rest) r.

(** A computation that only reads: it leaves the trace as it found it, and
    its outcome does not depend on the trace. *)
Definition traceless {A : Type} (m : M A) : Prop :=
  forall t, m t = ((m []).1, t).

(** ** Definitions used by the further properties *)

(** [fetch_outcomes client path props call res o t]: whenever the callable
    of the handle [props] answers [res], each of the three fetch functions
    at [path], run from the trace [t], ends with [o] after the one transport
    call. *)
Definition fetch_outcomes (client : Transport) (path : list string)
    (props : gmap string Transport) (call : JsValue -> Exn + Response)
    (res : Response) (o : Outcome JsValue) (t : list Event) : Prop :=
  (forall method variables,
      props !! ("$" +:+ toLowerCase method) = Some (TCallable call) ->
      call variables = inr res ->
      createMethodMutation_mutationFn client path method variables t
      = (o, t ++ [EvRequest ("$" +:+ toLowerCase method) variables]))
  /\ (forall input,
      props !! "$get" = Some (TCallable call) ->
      call input = inr res ->
      UseQuery.queryFn (useQuery client path input) t
      = (o, t ++ [EvRequest "$get" input]))
  /\ (forall input pageParam,
      props !! "$get" = Some (TCallable call) ->
      call (finalInput input pageParam) = inr res ->
      UseInfiniteQuery.queryFn (useInfiniteQuery client path input) pageParam t
      = (o, t ++ [EvRequest "$get" (finalInput input pageParam)])).

(** [utils_reaches path segments path']: the chained property accesses on
    the utils proxy at [path] each yield a utils proxy, the last one at
    [path']. *)
Inductive utils_reaches : list string -> list string -> list string -> Prop :=
| utils_reaches_nil (path : list string) : utils_reaches path [] path
| utils_reaches_cons (path path' r : list string) (s : string) (rest : list string) :
    createUtilsProxy_get path s = UProxy path' ->
    utils_reaches path' rest r ->
    utils_reaches path (s :: rest) r.

(** The handle at users of [misdeclared]. *)
Definition misdeclared_users : gmap string Transport := {[ "$post" := TObject ∅ ]}.

(** [{ users: { $post: {} } }]: a [$post] that is an object, not a callable. *)
Definition misdeclared : Transport := TObject {[ "users" := TObject misdeclared_users ]}.

(** The handle at users of [offline]. *)
Definition offline_users : gmap string Transport :=
  {[ "$get" := TCallable (fun _ => inl TypeError);
     "$post" := TCallable (fun _ => inl TypeError) ]}.

(** [{ users: { $get, $post } }] whose callables reject, as a fetch does
    when the network is down. *)
Definition offline : Transport := TObject {[ "users" := TObject offline_users ]}.

(** The handle at users of [garbled]. *)
Definition garbled_users : gmap string Transport :=
  {[ "$get" := TCallable (respond true 200 "OK" None);
     "$post" := TCallable (respond true 200 "OK" None) ]}.

(** [{ users: { $get, $post } }] answering 200 with a body that does not
    parse. *)
Definition garbled : Transport := TObject {[ "users" := TObject garbled_users ]}.

(** * Properties *)

(** ** JavaScript values *)

Example toString_samples :
  toString (JArr [JNum 1; JNull; JStr "a"; JArr [JNum (-2)]]) = Returned "1,,a,-2"
  /\ toString (JArr []) = Returned ""
  /\ toString (JObj {[ "code" := JNum 7 ]}) = Returned "[object Object]"
  /\ toString (JArr [JStr "a"; JObj {[ "toString" := JNum 1 ]}]) = Thrown TypeError
  /\ toString (JNum 1000000000000000000000) = Unmodelled
  /\ spread (JStr "ab") = {[ "0" := JStr "a"; "1" := JStr "b" ]}.
Proof. repeat (split; [vm_compute; reflexivity|]). vm_compute. reflexivity. Qed.

(** ** The monad *)

Lemma bind_returned {A B : Type} (m : M A) (f : A -> M B) (a : A) (t t' : list Event) :
  m t = (Returned a, t') -> (m ≫= f) t = f a t'.
Proof. intros H. unfold mbind, M_bind. by rewrite H. Qed.

Lemma bind_thrown {A B : Type} (m : M A) (f : A -> M B) (e : Exn) (t t' : list Event) :
  m t = (Thrown e, t') -> (m ≫= f) t = (Thrown e, t').
Proof. intros H. unfold mbind, M_bind. by rewrite H. Qed.

(** ** Path resolution leaves the trace alone *)

Lemma index_trace (acc : Transport) (p : string) (t : list Event) :
  index acc p t = ((index acc p []).1, t).
Proof.
  unfold index. destruct acc as [|props|call]; [done| |].
  - destruct (props !! p); [done|]. by destruct (bool_decide _).
  - by destruct (bool_decide _).
Qed.

Lemma reduce_trace (path : list string) (acc : Transport) (t : list Event) :
  reduce path acc t = ((reduce path acc []).1, t).
Proof.
  revert acc. induction path as [|p rest IH]; intros acc; [done|].
  cbn [reduce]. unfold mbind, M_bind.
  rewrite (index_trace acc p t). rewrite (index_trace acc p []). cbn [fst].
  destruct (index acc p []).1 as [next|e|]; [|done|done].
  rewrite (IH next). by destruct (reduce rest next []) as [[?|?|] ?].
Qed.

Lemma has_in_trace (key : string) (rpc : Transport) (t : list Event) :
  has_in key rpc t = ((has_in key rpc []).1, t).
Proof.
  unfold has_in. destruct rpc as [|props|call]; [done|done|].
  by destruct (bool_decide _).
Qed.

(** ** The last segment of a path *)

Lemma last_segment_snoc (init : list string) (seg : string) :
  (if bool_decide (0 < length (init ++ [seg]))
   then default "" ((init ++ [seg]) !! (length (init ++ [seg]) - 1)) else "") = seg.
Proof.
  rewrite length_app. cbn [length].
  rewrite bool_decide_eq_true_2 by lia.
  replace (length init + 1 - 1) with (length init) by lia.
  by rewrite list_lookup_middle.
Qed.

Lemma slice_0_neg1_snoc (init : list string) (seg : string) :
  slice_0_neg1 (init ++ [seg]) = init.
Proof.
  unfold slice_0_neg1. rewrite length_app. cbn [length].
  replace (length init + 1 - 1) with (length init) by lia.
  by rewrite take_app_length.
Qed.

(** ** What [onSuccess] does, by the shape of the path *)

Lemma onSuccess_resource (init : list string) (seg : string)
    (cb : option Callback) (d v c : JsValue) (t : list Event) :
  startsWith seg ":" = true ->
  createMethodMutation_onSuccess (init ++ [seg]) cb d v c t
  = optional_call cb d v c
      (t ++ [EvInvalidate (JStr <$> init); EvInvalidate (JStr <$> init ++ [seg])]).
Proof.
  intros Hres. unfold createMethodMutation_onSuccess.
  rewrite last_segment_snoc, Hres, slice_0_neg1_snoc.
  unfold invalidateQueries, emit, mbind, M_bind.
  by rewrite <- app_assoc.
Qed.

Lemma onSuccess_collection (path : list string)
    (cb : option Callback) (d v c : JsValue) (t : list Event) :
  (forall seg, last path = Some seg -> startsWith seg ":" = false) ->
  createMethodMutation_onSuccess path cb d v c t
  = optional_call cb d v c (t ++ [EvInvalidate (JStr <$> path)]).
Proof.
  intros Hcol. unfold createMethodMutation_onSuccess.
  assert ((if bool_decide (0 < length path)
           then default "" (path !! (length path - 1)) else "") = "" \/
          startsWith (if bool_decide (0 < length path)
           then default "" (path !! (length path - 1)) else "") ":" = false) as Hlast.
  { destruct path as [|p rest] using rev_ind; [by left|right].
    rewrite last_segment_snoc. apply Hcol. by rewrite last_snoc. }
  assert (startsWith (if bool_decide (0 < length path)
           then default "" (path !! (length path - 1)) else "") ":" = false) as ->.
  { destruct Hlast as [->| ->]; done. }
  done.
Qed.

Lemma invalidationSet_resource (init : list string) (seg : string) (d v c : JsValue) :
  startsWith seg ":" = true ->
  invalidationSet (init ++ [seg]) d v c = [JStr <$> init; JStr <$> init ++ [seg]].
Proof.
  intros Hres. unfold invalidationSet. by rewrite onSuccess_resource.
Qed.

Lemma invalidationSet_collection (path : list string) (d v c : JsValue) :
  (forall seg, last path = Some seg -> startsWith seg ":" = false) ->
  invalidationSet path d v c = [JStr <$> path].
Proof.
  intros Hcol. unfold invalidationSet. by rewrite onSuccess_collection.
Qed.

(** Either way the engine's [onSuccess] first hands its invalidation set to
    the store and then calls the caller's callback. *)
Lemma onSuccess_invalidates_then_calls (path : list string)
    (cb : option Callback) (d v c : JsValue) (t : list Event) :
  createMethodMutation_onSuccess path cb d v c t
  = optional_call cb d v c (t ++ (EvInvalidate <$> invalidationSet path d v c)).
Proof.
  destruct path as [|seg init _] using rev_ind.
  - rewrite onSuccess_collection, invalidationSet_collection; done.
  - destruct (startsWith seg ":") eqn:Hseg.
    + by rewrite onSuccess_resource, invalidationSet_resource.
    + assert (forall s, last (init ++ [seg]) = Some s -> startsWith s ":" = false) as Hcol.
      { intros s. rewrite last_snoc. by intros [= <-]. }
      by rewrite onSuccess_collection, invalidationSet_collection.
Qed.

(** ** The trace of a dispatch *)

Lemma unwrap_trace (res : Response) (t : list Event) :
  unwrap res t = ((unwrap res []).1, t).
Proof.
  unfold unwrap, res_json, catch, lift, mbind, M_bind, mret, M_ret, throw.
  destruct (ok res); cbn [negb]; [by destruct (json res)|].
  destruct (json res); by destruct (newHonoQueryError _ _).
Qed.

Lemma invoke_returned (rpc : Transport) (key : string) (input : JsValue)
    (res : Response) (t t' : list Event) :
  invoke rpc key input t = (Returned res, t') -> t' = t ++ [EvRequest key input].
Proof.
  unfold invoke, mbind, M_bind. rewrite index_trace.
  destruct (index rpc key []).1 as [[| |call]| |]; try done.
  unfold emit. destruct (call input); [done|]. by intros [= _ <-].
Qed.

(** A mutation function that resolves has made exactly one transport call,
    the last thing in its trace. *)
Lemma mutationFn_returned (client : Transport) (path : list string) (method : string)
    (variables data : JsValue) (t t' : list Event) :
  createMethodMutation_mutationFn client path method variables t = (Returned data, t') ->
  t' = t ++ [EvRequest ("$" +:+ toLowerCase method) variables].
Proof.
  unfold createMethodMutation_mutationFn, mbind at 1, M_bind at 1.
  rewrite reduce_trace. destruct (reduce path client []).1 as [rpc| |]; [|done|done].
  unfold mbind at 1, M_bind at 1. rewrite has_in_trace.
  destruct (has_in _ rpc []).1 as [[|]| |]; cbn [negb]; [|done|done|done].
  unfold mbind, M_bind.
  destruct (invoke rpc _ variables t) as [[res| |] t''] eqn:Hinv; [|done|done].
  apply invoke_returned in Hinv as ->.
  rewrite unwrap_trace. destruct (unwrap res []).1; [|done|done]. by intros [= _ <-].
Qed.

(** A rejected mutation function is all the store runs: nothing is
    invalidated and no callback is called. *)
Lemma mutate_thrown (o : UseMutation.options) (variables context : JsValue)
    (e : Exn) (t t' : list Event) :
  UseMutation.mutationFn o variables t = (Thrown e, t') ->
  Store.mutate o variables context t = (Thrown e, t').
Proof. intros H. unfold Store.mutate. by apply bind_thrown. Qed.

(** C1. A mutation whose path ends in a resource marker (a segment that
    starts with a colon) invalidates exactly two keys, the full path and the
    path without its last segment; a mutation whose last segment is not a
    resource marker invalidates exactly the full path; and a mutation at
    users / :id / posts / :postId invalidates that path and
    users / :id / posts, not the grandparent users / :id. *)
Theorem C1_invalidation_set :
  (forall (init : list string) (seg : string) (d v c : JsValue),
      startsWith seg ":" = true ->
      invalidationSet (init ++ [seg]) d v c ≡ₚ [JStr <$> init ++ [seg]; JStr <$> init]
      /\ (JStr <$> init ++ [seg]) ≠ (JStr <$> init))
  /\ (forall (path : list string) (d v c : JsValue),
      (forall seg, last path = Some seg -> startsWith seg ":" = false) ->
      invalidationSet path d v c = [JStr <$> path])
  /\ (forall d v c : JsValue,
      invalidationSet ["users"; ":id"; "posts"; ":postId"] d v c
      ≡ₚ [ [JStr "users"; JStr ":id"; JStr "posts"; JStr ":postId"];
           [JStr "users"; JStr ":id"; JStr "posts"] ]
      /\ [JStr "users"; JStr ":id"] ∉ invalidationSet ["users"; ":id"; "posts"; ":postId"] d v c).
Proof.
  split; [|split].
  - intros init seg d v c Hres. split.
    + rewrite invalidationSet_resource by done. apply Permutation_swap.
    + intros Heq. apply (f_equal length) in Heq.
      rewrite !length_fmap, length_app in Heq. cbn in Heq. lia.
  - intros path d v c Hcol. by apply invalidationSet_collection.
  - intros d v c.
    rewrite (invalidationSet_resource ["users"; ":id"; "posts"] ":postId") by done.
    split; [apply Permutation_swap|].
    cbn. rewrite !elem_of_cons, elem_of_nil. intros [H|[H|[]]]; discriminate H.
Qed.

Lemma C1_invalidation_set_witness :
  startsWith ":id" ":" = true
  /\ invalidationSet (["users"] ++ [":id"]) JNull JNull JNull
     ≡ₚ [JStr <$> ["users"] ++ [":id"]; JStr <$> ["users"]]
  /\ (forall seg, last ["users"] = Some seg -> startsWith seg ":" = false)
  /\ invalidationSet ["users"] JNull JNull JNull = [JStr <$> ["users"]].
Proof.
  assert (forall seg, last ["users"] = Some seg -> startsWith seg ":" = false) as Hcol.
  { intros seg [= <-]. reflexivity. }
  split; [reflexivity|]. split; [|split; [exact Hcol|]].
  - apply (proj1 C1_invalidation_set ["users"] ":id" JNull JNull JNull). reflexivity.
  - apply (proj1 (proj2 C1_invalidation_set) ["users"] JNull JNull JNull Hcol).
Defined.

Lemma createMethodMutation_provided (client : Transport) (path : list string)
    (method : string) (cb : option Callback) (t : list Event) :
  createMethodMutation client path method true cb t
  = (Returned (mutationOptions client path method cb), t).
Proof. reflexivity. Qed.

(** The claim of C2 on the order of the two invalidations fails on the code:
    for the patch at posts / :id the store receives the collection key
    posts first and the resource key posts / :id second. *)
Lemma C2_order_counterexample :
  invalidated
    (Store.mutate (mutationOptions blog ["posts"; ":id"] "patch" (Some (recording "onSuccess")))
       patch_input JUndefined []).2
  = [ [JStr "posts"]; [JStr "posts"; JStr ":id"] ]
  /\ invalidated
       (Store.mutate (mutationOptions blog ["posts"; ":id"] "patch" (Some (recording "onSuccess")))
          patch_input JUndefined []).2
     <> [ [JStr "posts"; JStr ":id"]; [JStr "posts"] ].
Proof. split; [vm_compute; reflexivity | vm_compute; discriminate]. Qed.

(** C2, amended. When the dispatch of a mutation has succeeded, the transport
    call is the last event before the invalidations; the store then receives
    the invalidation set, and only after it the caller's [onSuccess] runs, on
    the triple (data, variables, context).  At path posts / :id the
    invalidations are the key posts first and the key posts / :id second. *)
Theorem C2_invalidation_between_dispatch_and_callback
    (client : Transport) (path : list string) (method : string)
    (cb : option Callback) (variables context data : JsValue) (t t' : list Event) :
  createMethodMutation_mutationFn client path method variables t = (Returned data, t') ->
  t' = t ++ [EvRequest ("$" +:+ toLowerCase method) variables]
  /\ Store.mutate (mutationOptions client path method cb) variables context t
     = (optional_call cb data variables context ≫= fun _ => mret data)
         (t' ++ (EvInvalidate <$> invalidationSet path data variables context))
  /\ (path = ["posts"; ":id"] ->
      invalidationSet path data variables context
      = [ [JStr "posts"]; [JStr "posts"; JStr ":id"] ]).
Proof.
  intros Hfn. split; [by eapply mutationFn_returned|split].
  - unfold Store.mutate. cbn [UseMutation.mutationFn UseMutation.onSuccess mutationOptions].
    rewrite (bind_returned _ _ _ _ _ Hfn).
    unfold mbind at 1, M_bind at 1. rewrite onSuccess_invalidates_then_calls.
    reflexivity.
  - intros ->. by rewrite (invalidationSet_resource ["posts"] ":id").
Qed.

Lemma C2_invalidation_between_dispatch_and_callback_witness :
  Store.mutate (mutationOptions blog ["posts"; ":id"] "patch" (Some (recording "onSuccess")))
    patch_input JUndefined []
  = (Returned (JObj {[ "title" := JStr "x" ]}),
     [ EvRequest "$patch" patch_input;
       EvInvalidate [JStr "posts"];
       EvInvalidate [JStr "posts"; JStr ":id"];
       EvCallback "onSuccess" [JObj {[ "title" := JStr "x" ]}; patch_input; JUndefined] ]).
Proof.
  assert (createMethodMutation_mutationFn blog ["posts"; ":id"] "patch" patch_input []
          = (Returned (JObj {[ "title" := JStr "x" ]}), [EvRequest "$patch" patch_input])) as Hfn.
  { vm_compute. reflexivity. }
  destruct (C2_invalidation_between_dispatch_and_callback blog ["posts"; ":id"] "patch"
              (Some (recording "onSuccess")) patch_input JUndefined _ _ _ Hfn)
    as (_ & -> & Hkeys).
  rewrite Hkeys by reflexivity. reflexivity.
Defined.

(** ** Error normalisation *)

(** For a response whose success flag is false the error constructor is
    run on the payload; what it gives decides the failure. *)
Lemma unwrap_not_ok (res : Response) (t : list Event) :
  ok res = false ->
  unwrap res t
  = (match newHonoQueryError res (errorData res) with
     | Returned e => Thrown (RequestError e)
     | Thrown x => Thrown x
     | Unmodelled => Unmodelled
     end, t).
Proof.
  intros Hok. unfold unwrap, errorData, res_json, catch, lift, mbind, M_bind, mret, M_ret, throw.
  rewrite Hok. cbn [negb]. destruct (json res); by destruct (newHonoQueryError _ _).
Qed.

(** A handle whose callable was invoked has the callable's key. *)
Lemma invoke_returned_has_in (rpc : Transport) (key : string) (input : JsValue)
    (res : Response) (t t' : list Event) :
  invoke rpc key input t = (Returned res, t') -> has_in key rpc t = (Returned true, t).
Proof.
  unfold invoke, index, has_in, mbind, M_bind, mret, M_ret, throw, unmodelled.
  destruct rpc as [|props|call]; [done| |by destruct (bool_decide _)].
  destruct (props !! key) as [[]|]; try done. by destruct (bool_decide _).
Qed.

(** C3. The claim fails on the code at a response without the success flag
    whose body parses to an object with a message that cannot be converted
    to a string, here the body with message = [{ "toString": 1 }]: the
    constructor of the error throws while it converts the message, and the
    fetch functions fail with that [TypeError] after the one transport call,
    not with a [HonoQueryError] carrying the response and the body. *)
Theorem C3_constructor_throws :
  createMethodMutation_mutationFn (rejecting (Some unstringifiable_body)) ["users"] "post"
    JNull []
  = (Thrown TypeError, [EvRequest "$post" JNull])
  /\ UseQuery.queryFn (useQuery (rejecting (Some unstringifiable_body)) ["users"] JNull) []
     = (Thrown TypeError, [EvRequest "$get" JNull])
  /\ UseInfiniteQuery.queryFn
       (useInfiniteQuery (rejecting (Some unstringifiable_body)) ["users"] JNull) JUndefined []
     = (Thrown TypeError, [EvRequest "$get" (finalInput JNull JUndefined)]).
Proof. repeat (split; [vm_compute; reflexivity|]). vm_compute. reflexivity. Qed.

(** The two payloads of the specification's example. *)
Example error_payloads :
  (createMethodMutation_mutationFn (rejecting None) ["users"] "post" JNull []).1
  = Thrown (RequestError
      {| name := "HonoQueryError"; message := "Unprocessable Entity";
         response := {| ok := false; status := 422;
                        statusText := "Unprocessable Entity"; json := None |};
         data := JObj {[ "message" := JStr "Unprocessable Entity" ]} |})
  /\ (createMethodMutation_mutationFn
        (rejecting (Some (JObj {[ "message" := JStr "X"; "errors" := JArr [JStr "e"] ]})))
        ["users"] "post" JNull []).1
     = Thrown (RequestError
         {| name := "HonoQueryError"; message := "X";
            response := {| ok := false; status := 422;
                           statusText := "Unprocessable Entity";
                           json := Some (JObj {[ "message" := JStr "X";
                                                 "errors" := JArr [JStr "e"] ]}) |};
            data := JObj {[ "message" := JStr "X"; "errors" := JArr [JStr "e"] ]} |}).
Proof. split; vm_compute; reflexivity. Qed.

(** ** Capability gating *)

Lemma includes_elem_of (array : list string) (x : string) :
  includes array x = true -> x ∈ array.
Proof.
  unfold includes. induction array as [|y rest IH]; cbn; [done|].
  destruct (String.eqb x y) eqn:Heq; cbn.
  - apply String.eqb_eq in Heq as ->. intros _. apply elem_of_cons. by left.
  - intros H. apply elem_of_cons. right. by apply IH.
Qed.

Lemma mutating_method_cases (property : string) :
  includes ["post"; "put"; "patch"; "delete"] property = true ->
  property = "post" \/ property = "put" \/ property = "patch" \/ property = "delete".
Proof.
  intros H. apply includes_elem_of in H.
  rewrite !elem_of_cons, elem_of_nil in H. tauto.
Qed.

(** The branch of the [get] handler that a mutating method name takes. *)
Lemma proxyHandlers_get_method (client : Transport) (path : list string)
    (property : string) :
  includes ["post"; "put"; "patch"; "delete"] property = true ->
  proxyHandlers_get client path property
  = (rpc ← reduce path client;
     has ← has_in ("$" +:+ property) rpc;
     if (has : bool) then
       mret (PMethodProxy (fun hookProperty =>
               if String.eqb hookProperty "useMutation"
               then Some (createMethodMutation client path property)
               else None))
     else mret PUndefined).
Proof.
  intros H. destruct (mutating_method_cases _ H) as [->|[->|[->| ->]]]; reflexivity.
Qed.




(** ** Cache keys *)

(** Structurally equal values are the same value of the model. *)
Lemma struct_eq_eq (v1 v2 : JsValue) : struct_eq v1 v2 -> v1 = v2.
Proof.
  revert v1 v2. fix IH 3. intros v1 v2 H.
  destruct H as [| | | | |l1 l2 Hl|m1 m2 Hm]; try reflexivity.
  - f_equal. induction Hl as [|x y l1 l2 Hxy _ IHl]; [reflexivity|].
    f_equal; [exact (IH x y Hxy)|exact IHl].
  - f_equal. apply map_eq. intros k.
    destruct (Hm k) as [x y Hxy|]; [|reflexivity].
    f_equal. exact (IH x y Hxy).
Qed.

(** C5. The cache key of a single query is the segments of the path followed
    by the input; for an undefined input it ends in [undefined]; a paged
    query has the key of the same shape, whatever the page cursor; and
    structurally equal inputs give equal keys for the same path. *)
Theorem C5_cache_key (client : Transport) (path : list string) :
  (forall input,
      UseQuery.queryKey (useQuery client path input) = (JStr <$> path) ++ [input])
  /\ UseQuery.queryKey (useQuery client path JUndefined) = (JStr <$> path) ++ [JUndefined]
  /\ (forall input,
      UseInfiniteQuery.queryKey (useInfiniteQuery client path input)
      = (JStr <$> path) ++ [input])
  /\ (forall i1 i2, struct_eq i1 i2 ->
      UseQuery.queryKey (useQuery client path i1) = UseQuery.queryKey (useQuery client path i2)
      /\ UseInfiniteQuery.queryKey (useInfiniteQuery client path i1)
         = UseInfiniteQuery.queryKey (useInfiniteQuery client path i2)).
Proof.
  split; [reflexivity|]. split; [reflexivity|]. split; [reflexivity|].
  intros i1 i2 Heq. by rewrite (struct_eq_eq i1 i2 Heq).
Qed.

Lemma filter_ab_ba : struct_eq filter_ab filter_ba.
Proof.
  apply struct_eq_obj. intros k.
  destruct (decide (k = "a")) as [->|Ha]; [repeat constructor|].
  destruct (decide (k = "b")) as [->|Hb]; [repeat constructor|].
  rewrite !lookup_insert_ne, lookup_empty by done. constructor.
Qed.

Lemma C5_cache_key_witness :
  struct_eq filter_ab filter_ba
  /\ UseQuery.queryKey (useQuery blog ["posts"] filter_ab)
     = UseQuery.queryKey (useQuery blog ["posts"] filter_ba).
Proof.
  split; [exact filter_ab_ba|].
  apply (proj2 (proj2 (proj2 (C5_cache_key blog ["posts"]))) filter_ab filter_ba filter_ab_ba).
Defined.

(** A key determines its path and its input: the key of a query without
    input is not the key of any query at another path or with an input. *)
Lemma queryKey_inj (client : Transport) (p1 p2 : list string) (i1 i2 : JsValue) :
  UseQuery.queryKey (useQuery client p1 i1) = UseQuery.queryKey (useQuery client p2 i2) ->
  p1 = p2 /\ i1 = i2.
Proof.
  cbn. intros H. apply app_inj_2 in H as [Hp [= Hi]]; [|done].
  split; [|done]. revert p2 Hp.
  induction p1 as [|a p1 IH]; intros [|b p2] Hp; try done.
  cbn in Hp. injection Hp as -> Hp. f_equal. by apply IH.
Qed.

(** ** Paged queries *)

(** The transport call of a page request, when the path resolves to a
    handle with a callable [$get]. *)
Lemma infinite_queryFn_request (client : Transport) (path : list string)
    (props : gmap string Transport) (call : JsValue -> Exn + Response)
    (input pageParam : JsValue) (t : list Event) :
  reduce path client t = (Returned (TObject props), t) ->
  props !! "$get" = Some (TCallable call) ->
  (Store.fetchPage (useInfiniteQuery client path input) pageParam t).2
  = t ++ [EvRequest "$get" (finalInput input pageParam)].
Proof.
  intros Hred Hget. unfold Store.fetchPage. cbn [useInfiniteQuery UseInfiniteQuery.queryFn].
  rewrite (bind_returned _ _ _ _ _ Hred).
  unfold invoke, index. unfold mbind, M_bind, mret, M_ret, emit, throw. rewrite Hget. cbn.
  destruct (call (finalInput input pageParam)) as [e|res]; [done|].
  rewrite unwrap_trace. by destruct (unwrap res []).1.
Qed.

Lemma opt_get_insert_eq (props : gmap string JsValue) (k : string) (v : JsValue) :
  opt_get (JObj (<[k := v]> props)) k = v.
Proof. unfold opt_get. by rewrite lookup_insert_eq. Qed.

Lemma opt_get_insert_ne (props : gmap string JsValue) (k k' : string) (v : JsValue) :
  k <> k' -> opt_get (JObj (<[k := v]> props)) k' = default JUndefined (props !! k').
Proof. intros Hne. unfold opt_get. by rewrite lookup_insert_ne. Qed.

(** C6 fails in its last part: the first page is requested with whatever
    cursor the store starts from; started from the cursor 1, the paged
    query over limit = 10 requests its first page with page = 1. *)
Lemma C6_first_page_counterexample :
  (Store.fetchTwoPages (useInfiniteQuery feed ["feed"] limit10) (JNum 1)
     (fun page => opt_get page "nextCursor") []).2
  = [ EvRequest "$get"
        (JObj {[ "query" := JObj {[ "limit" := JNum 10; "page" := JNum 1 ]} ]});
      EvRequest "$get"
        (JObj {[ "query" := JObj {[ "limit" := JNum 10; "page" := JStr "c2" ]} ]}) ].
Proof. vm_compute. reflexivity. Qed.

(** C6, amended. Each page request of a paged query dispatches the input
    with the store's page cursor merged into its [query] object under the
    key [page]: the other fields of the input and the other query parameters
    are kept; for the query parameters limit = 10 the page after a first
    page is requested with limit = 10 and page = the cursor extracted from
    the first page; and the first page is requested with the cursor the
    store starts from, so that its [page] is undefined exactly when that
    cursor is. *)
Theorem C6_page_cursor_merge
    (client : Transport) (path : list string)
    (props : gmap string Transport) (call : JsValue -> Exn + Response)
    (input : JsValue) (t : list Event) :
  reduce path client t = (Returned (TObject props), t) ->
  props !! "$get" = Some (TCallable call) ->
  (forall pageParam,
      (Store.fetchPage (useInfiniteQuery client path input) pageParam t).2
      = t ++ [EvRequest "$get" (finalInput input pageParam)]
      /\ exists fields query : gmap string JsValue,
           finalInput input pageParam = JObj fields
           /\ fields !! "query" = Some (JObj query)
           /\ query !! "page" = Some pageParam
           /\ (forall k, k <> "page" ->
               query !! k = spread (nullish (opt_get input "query") (JObj ∅)) !! k)
           /\ (forall k, k <> "query" -> fields !! k = spread input !! k))
  /\ (forall getNextPageParam firstPage,
      opt_get input "query" = JObj {[ "limit" := JNum 10 ]} ->
      exists final,
        (Store.fetchNextPage (useInfiniteQuery client path input) getNextPageParam firstPage t).2
        = t ++ [EvRequest "$get" final]
        /\ opt_get final "query"
           = JObj {[ "limit" := JNum 10; "page" := getNextPageParam firstPage ]})
  /\ (forall initialPageParam getNextPageParam,
      exists later,
        (Store.fetchTwoPages (useInfiniteQuery client path input)
           initialPageParam getNextPageParam t).2
        = t ++ EvRequest "$get" (finalInput input initialPageParam) :: later
        /\ opt_get (opt_get (finalInput input initialPageParam) "query") "page"
           = initialPageParam
        /\ (opt_get (opt_get (finalInput input initialPageParam) "query") "page" = JUndefined
            <-> initialPageParam = JUndefined)).
Proof.
  intros Hred Hget. split; [|split].
  - intros pageParam. split; [by eapply infinite_queryFn_request|].
    unfold finalInput. eexists _, _. split; [reflexivity|].
    split; [apply lookup_insert_eq|]. split; [apply lookup_insert_eq|]. split.
    + intros k Hk. by apply lookup_insert_ne.
    + intros k Hk. by apply lookup_insert_ne.
  - intros getNextPageParam firstPage Hq. eexists. split.
    + unfold Store.fetchNextPage. by eapply infinite_queryFn_request.
    + unfold finalInput. rewrite opt_get_insert_eq, Hq. cbn [nullish spread].
      reflexivity.
  - intros initialPageParam getNextPageParam.
    assert (forall t1, reduce path client t1 = (Returned (TObject props), t1)) as Hred'.
    { intros t1. rewrite reduce_trace. rewrite reduce_trace in Hred.
      by injection Hred as ->. }
    assert (opt_get (opt_get (finalInput input initialPageParam) "query") "page"
            = initialPageParam) as Hpage.
    { unfold finalInput. rewrite opt_get_insert_eq. apply opt_get_insert_eq. }
    unfold Store.fetchTwoPages, mbind, M_bind.
    pose proof (infinite_queryFn_request client path props call input initialPageParam t
                  Hred Hget) as H1.
    destruct (Store.fetchPage _ initialPageParam t) as [[first| |] t1];
      cbn [snd] in H1; subst t1.
    + pose proof (infinite_queryFn_request client path props call input
                    (getNextPageParam first)
                    (t ++ [EvRequest "$get" (finalInput input initialPageParam)])
                    (Hred' _) Hget) as H2.
      unfold Store.fetchNextPage.
      destruct (Store.fetchPage _ (getNextPageParam first) _) as [[second| |] t2];
        cbn [snd] in H2; subst t2; cbn [snd];
        (eexists; split; [by rewrite <- app_assoc|]; by rewrite Hpage).
    + exists []. by rewrite Hpage.
    + exists []. by rewrite Hpage.
Qed.

Lemma C6_page_cursor_merge_witness :
  exists final,
    (Store.fetchNextPage (useInfiniteQuery blog ["posts"] limit10)
       (fun page => opt_get page "nextCursor")
       (JObj {[ "nextCursor" := JStr "c2" ]}) []).2
    = [] ++ [EvRequest "$get" final]
    /\ opt_get final "query"
       = JObj {[ "limit" := JNum 10;
                 "page" := opt_get (JObj {[ "nextCursor" := JStr "c2" ]}) "nextCursor" ]}.
Proof.
  assert (reduce ["posts"] blog [] = (Returned (TObject blog_posts), [])) as Hred
    by (vm_compute; reflexivity).
  assert (blog_posts !! "$get" = Some (TCallable (respond true 200 "OK" (Some (JArr [])))))
    as Hget by (vm_compute; reflexivity).
  apply (proj1 (proj2 (C6_page_cursor_merge blog ["posts"] blog_posts _ limit10 [] Hred Hget))
           (fun page => opt_get page "nextCursor") (JObj {[ "nextCursor" := JStr "c2" ]})).
  vm_compute. reflexivity.
Defined.

(** The two requests of a paged query over limit = 10 that starts without
    a cursor. *)
Example paging_trace :
  (Store.fetchTwoPages (useInfiniteQuery feed ["feed"] limit10) JUndefined
     (fun page => opt_get page "nextCursor") []).2
  = [ EvRequest "$get"
        (JObj {[ "query" := JObj {[ "limit" := JNum 10; "page" := JUndefined ]} ]});
      EvRequest "$get"
        (JObj {[ "query" := JObj {[ "limit" := JNum 10; "page" := JStr "c2" ]} ]}) ].
Proof. vm_compute. reflexivity. Qed.

(** ** Proxy traversal *)

Lemma traceless_ret {A : Type} (a : A) : traceless (mret a).
Proof. done. Qed.

Lemma traceless_throw {A : Type} (e : Exn) : traceless (@throw A e).
Proof. done. Qed.

Lemma traceless_bind {A B : Type} (m : M A) (f : A -> M B) :
  traceless m -> (forall a, traceless (f a)) -> traceless (m ≫= f).
Proof.
  intros Hm Hf t. unfold mbind, M_bind. rewrite (Hm t).
  pose proof (Hm []) as H0. destruct (m []) as [[a|e|] t0]; cbn in *.
  - injection H0 as ->. apply Hf.
  - by injection H0 as ->.
  - by injection H0 as ->.
Qed.

Lemma reduce_traceless (path : list string) (acc : Transport) : traceless (reduce path acc).
Proof. intros t. apply reduce_trace. Qed.

Lemma has_in_traceless (key : string) (rpc : Transport) : traceless (has_in key rpc).
Proof. intros t. apply has_in_trace. Qed.

Lemma proxyHandlers_get_traceless (client : Transport) (path : list string)
    (property : string) :
  traceless (proxyHandlers_get client path property).
Proof.
  unfold proxyHandlers_get.
  destruct (String.eqb property "useQuery"); [apply traceless_ret|].
  destruct (String.eqb property "useInfiniteQuery"); [apply traceless_ret|].
  destruct (includes _ property).
  - apply traceless_bind; [apply reduce_traceless|]. intros rpc.
    apply traceless_bind; [apply has_in_traceless|]. intros [|]; apply traceless_ret.
  - destruct (startsWith property "$"); apply traceless_ret.
Qed.

(** A property access on a proxy only reads the client. *)
Lemma proxy_get_trace (p : Proxy) (property : string) (t : list Event) :
  proxy_get p property t = ((proxy_get p property []).1, t).
Proof. apply proxyHandlers_get_traceless. Qed.

Lemma proxy_get_plain (client : Transport) (path : list string) (property : string)
    (t : list Event) :
  plain property = true ->
  proxy_get (createHonoQueryProxy client path) property t
  = (Returned (PProxy (createHonoQueryProxy client (path ++ [property]))), t).
Proof.
  unfold plain, proxy_get, proxyHandlers_get. cbn [createHonoQueryProxy proxy_client proxy_path].
  destruct (String.eqb property "useQuery"); [done|].
  destruct (String.eqb property "useInfiniteQuery"); [done|].
  destruct (includes _ property); [done|].
  by destruct (startsWith property "$").
Qed.

Lemma proxy_get_sigil (client : Transport) (path : list string) (property : string)
    (t : list Event) :
  startsWith property "$" = true ->
  proxy_get (createHonoQueryProxy client path) property t = (Returned PUndefined, t).
Proof.
  unfold startsWith. intros Hs. destruct property as [|c rest]; [done|].
  change (String.prefix "$" (String c rest))
    with (if Ascii.ascii_dec "$" c then String.prefix "" rest else false) in Hs.
  destruct (Ascii.ascii_dec "$" c) as [<-|]; [|done].
  unfold proxy_get, proxyHandlers_get.
  assert (String.eqb (String "$" rest) "useQuery" = false) as -> by reflexivity.
  assert (String.eqb (String "$" rest) "useInfiniteQuery" = false) as -> by reflexivity.
  assert (includes ["post"; "put"; "patch"; "delete"] (String "$" rest) = false) as ->
    by reflexivity.
  unfold startsWith.
  change (String.prefix "$" (String "$" rest))
    with (if Ascii.ascii_dec "$" "$" then String.prefix "" rest else false).
  destruct (Ascii.ascii_dec "$" "$"); [|done]. by rewrite Hs.
Qed.

(** A hook trigger is never turned into a path segment. *)
Lemma proxy_get_reserved_no_proxy (p : Proxy) (property : string) (t : list Event) :
  property ∈ ["useQuery"; "useInfiniteQuery"; "post"; "put"; "patch"; "delete"] ->
  forall q, (proxy_get p property t).1 <> Returned (PProxy q).
Proof.
  intros Hin q. rewrite proxy_get_trace. cbn [fst].
  destruct p as [client path]. unfold proxy_get. cbn [proxy_client proxy_path].
  rewrite !elem_of_cons, elem_of_nil in Hin.
  destruct Hin as [->|[->|Hm]]; [done|done|].
  rewrite proxyHandlers_get_method.
  - unfold mbind, M_bind. destruct (reduce path client []) as [[rpc| |] t0]; [|done|done].
    destruct (has_in _ rpc t0) as [[[|]| |] t1]; done.
  - destruct Hm as [->|[->|[->|[->|[]]]]]; reflexivity.
Qed.

Lemma reaches_plain (client : Transport) (path segments : list string) :
  forallb plain segments = true ->
  reaches (createHonoQueryProxy client path) segments
          (createHonoQueryProxy client (path ++ segments)).
Proof.
  revert path. induction segments as [|s rest IH]; intros path Hall.
  - rewrite app_nil_r. constructor.
  - cbn in Hall. apply andb_prop in Hall as [Hs Hrest].
    eapply (reaches_cons _ _ _ _ _ []).
    + by apply proxy_get_plain.
    + replace (path ++ s :: rest) with ((path ++ [s]) ++ rest) by by rewrite <- app_assoc.
      by apply IH.
Qed.

Lemma reaches_functional (p q1 q2 : Proxy) (segments : list string) :
  reaches p segments q1 -> reaches p segments q2 -> q1 = q2.
Proof.
  intros H1. revert q2. induction H1 as [p|p q r s rest t Hget _ IH]; intros q2 H2.
  - by inversion H2.
  - inversion H2 as [|p' q' r' s' rest' t' Hget' Hrest']; subst.
    rewrite proxy_get_trace in Hget. rewrite proxy_get_trace in Hget'.
    assert (q = q') as -> by congruence. by apply IH.
Qed.

(** C7 fails as stated on a reserved name the handle does not support:
    posts has no [$post], and the access yields [undefined], not a hook. *)
Lemma C7_reserved_counterexample :
  proxy_get (createHonoQueryProxy blog ["posts"]) "post" [] = (Returned PUndefined, []).
Proof. vm_compute. reflexivity. Qed.

(** C7, amended. On a proxy at some path: a property that starts with the
    method sigil yields [undefined]; [useQuery] and [useInfiniteQuery] yield
    the query hooks bound to the path; post, put, patch and delete yield,
    when the path resolves, the holder of the bound [useMutation] hook if the
    handle has the method and [undefined] if it has not; no reserved name is
    ever appended to the path; any other property yields the proxy at the
    path extended by that property; the access leaves the trace as it was;
    and a chain of plain accesses leads to the proxy at the extended path,
    and to no other, each time it is followed. *)
Theorem C7_proxy_traversal
    (client : Transport) (path : list string) (property : string) (t : list Event) :
  (startsWith property "$" = true ->
   proxy_get (createHonoQueryProxy client path) property t = (Returned PUndefined, t))
  /\ (property = "useQuery" ->
      proxy_get (createHonoQueryProxy client path) property t
      = (Returned (PUseQuery (useQuery client path)), t))
  /\ (property = "useInfiniteQuery" ->
      proxy_get (createHonoQueryProxy client path) property t
      = (Returned (PUseInfiniteQuery (useInfiniteQuery client path)), t))
  /\ (property ∈ ["post"; "put"; "patch"; "delete"] ->
      forall rpc, reduce path client t = (Returned rpc, t) ->
        (has_in ("$" +:+ property) rpc t = (Returned true, t) ->
         exists get,
           proxy_get (createHonoQueryProxy client path) property t
           = (Returned (PMethodProxy get), t)
           /\ get "useMutation" = Some (createMethodMutation client path property))
        /\ (has_in ("$" +:+ property) rpc t = (Returned false, t) ->
            proxy_get (createHonoQueryProxy client path) property t
            = (Returned PUndefined, t)))
  /\ (property ∈ ["useQuery"; "useInfiniteQuery"; "post"; "put"; "patch"; "delete"] ->
      forall q, (proxy_get (createHonoQueryProxy client path) property t).1
                <> Returned (PProxy q))
  /\ (plain property = true ->
      proxy_get (createHonoQueryProxy client path) property t
      = (Returned (PProxy (createHonoQueryProxy client (path ++ [property]))), t))
  /\ (proxy_get (createHonoQueryProxy client path) property t).2 = t
  /\ (forall segments, forallb plain segments = true ->
      reaches (createHonoQueryProxy client path) segments
              (createHonoQueryProxy client (path ++ segments))
      /\ forall q, reaches (createHonoQueryProxy client path) segments q ->
                   q = createHonoQueryProxy client (path ++ segments)).
Proof.
  split; [by apply proxy_get_sigil|].
  split; [by intros ->|]. split; [by intros ->|].
  split.
  { intros Hm rpc Hred.
    assert (includes ["post"; "put"; "patch"; "delete"] property = true) as Hinc.
    { rewrite !elem_of_cons, elem_of_nil in Hm.
      destruct Hm as [->|[->|[->|[->|[]]]]]; reflexivity. }
    unfold proxy_get. cbn [createHonoQueryProxy proxy_client proxy_path].
    rewrite proxyHandlers_get_method by done.
    rewrite (bind_returned _ _ _ _ _ Hred). split; intros Hhas.
    - rewrite (bind_returned _ _ _ _ _ Hhas). eexists. split; reflexivity.
    - by rewrite (bind_returned _ _ _ _ _ Hhas). }
  split; [by apply proxy_get_reserved_no_proxy|].
  split; [by apply proxy_get_plain|].
  split; [by rewrite proxy_get_trace|].
  intros segments Hall. split; [by apply reaches_plain|].
  intros q Hq. eapply reaches_functional; [exact Hq|by apply reaches_plain].
Qed.

Lemma C7_proxy_traversal_witness :
  proxy_get (createHonoQueryProxy blog ["posts"]) "$get" [] = (Returned PUndefined, [])
  /\ proxy_get (createHonoQueryProxy blog ["posts"]) "comments" []
     = (Returned (PProxy (createHonoQueryProxy blog ["posts"; "comments"])), [])
  /\ reaches (createHonoQueryProxy blog []) ["posts"; ":id"]
       (createHonoQueryProxy blog ["posts"; ":id"]).
Proof.
  split; [|split].
  - apply (proj1 (C7_proxy_traversal blog ["posts"] "$get" [])). reflexivity.
  - apply (proj1 (proj2 (proj2 (proj2 (proj2 (proj2
             (C7_proxy_traversal blog ["posts"] "comments" []))))))). reflexivity.
  - apply (proj2 (proj2 (proj2 (proj2 (proj2 (proj2 (proj2
             (C7_proxy_traversal blog [] "posts" [])))))))). reflexivity.
Defined.

(** ** Unresolvable paths *)

Lemma reduce_app (pre post : list string) (acc : Transport) (t : list Event) :
  reduce (pre ++ post) acc t = (reduce pre acc ≫= reduce post) t.
Proof.
  revert acc t. induction pre as [|p pre IH]; intros acc t; cbn [reduce app].
  - unfold mbind, M_bind, mret, M_ret. by destruct (reduce post acc t) as [[?|?|] ?].
  - unfold mbind, M_bind. destruct (index acc p t) as [[next|e|] t']; [|done|done].
    rewrite IH. done.
Qed.

(** Nothing can be read past a segment that is missing. *)
Lemma reduce_missing (pre rest : list string) (s : string)
    (client : Transport) (t : list Event) :
  reduce (pre ++ [s]) client t = (Returned TUndefined, t) ->
  rest <> [] ->
  reduce (pre ++ s :: rest) client t = (Thrown TypeError, t).
Proof.
  intros Hpre Hrest.
  replace (pre ++ s :: rest) with ((pre ++ [s]) ++ rest) by by rewrite <- app_assoc.
  rewrite reduce_app, (bind_returned _ _ _ _ _ Hpre).
  by destruct rest.
Qed.

(** C8 fails on the time of the failure for the mutating methods: the
    access to [post] on the proxy of a path through a missing segment
    already throws, before any hook exists to be called. *)
Lemma C8_access_time_counterexample :
  reduce ["missing"] blog [] = (Returned TUndefined, [])
  /\ proxy_get (createHonoQueryProxy blog ["missing"; "x"]) "post" [] = (Thrown TypeError, []).
Proof. split; vm_compute; reflexivity. Qed.

(** C8, amended. When an intermediate segment of a path does not exist on
    the transport object, resolving the path fails with the runtime's
    [TypeError] and no transport call is made.  For the query hooks the
    failure is raised at call time: the hooks are handed out and their fetch
    functions fail.  A mutation function fails in the same way; and for the
    mutating method names the failure is raised by the property access on
    the proxy itself. *)
Theorem C8_unresolvable_path
    (client : Transport) (pre rest : list string) (s : string) (t : list Event) :
  reduce (pre ++ [s]) client t = (Returned TUndefined, t) ->
  rest <> [] ->
  reduce (pre ++ s :: rest) client t = (Thrown TypeError, t)
  /\ (forall input,
      proxy_get (createHonoQueryProxy client (pre ++ s :: rest)) "useQuery" t
      = (Returned (PUseQuery (useQuery client (pre ++ s :: rest))), t)
      /\ UseQuery.queryFn (useQuery client (pre ++ s :: rest) input) t
         = (Thrown TypeError, t))
  /\ (forall input pageParam,
      proxy_get (createHonoQueryProxy client (pre ++ s :: rest)) "useInfiniteQuery" t
      = (Returned (PUseInfiniteQuery (useInfiniteQuery client (pre ++ s :: rest))), t)
      /\ UseInfiniteQuery.queryFn (useInfiniteQuery client (pre ++ s :: rest) input) pageParam t
         = (Thrown TypeError, t))
  /\ (forall method variables,
      createMethodMutation_mutationFn client (pre ++ s :: rest) method variables t
      = (Thrown TypeError, t))
  /\ (forall property, property ∈ ["post"; "put"; "patch"; "delete"] ->
      proxy_get (createHonoQueryProxy client (pre ++ s :: rest)) property t
      = (Thrown TypeError, t)).
Proof.
  intros Hpre Hrest. pose proof (reduce_missing pre rest s client t Hpre Hrest) as Hred.
  split; [done|]. split; [|split; [|split]].
  - intros input. split; [reflexivity|].
    cbn [useQuery UseQuery.queryFn]. by rewrite (bind_thrown _ _ _ _ _ Hred).
  - intros input pageParam. split; [reflexivity|].
    cbn [useInfiniteQuery UseInfiniteQuery.queryFn]. by rewrite (bind_thrown _ _ _ _ _ Hred).
  - intros method variables. unfold createMethodMutation_mutationFn.
    by rewrite (bind_thrown _ _ _ _ _ Hred).
  - intros property Hm.
    assert (includes ["post"; "put"; "patch"; "delete"] property = true) as Hinc.
    { rewrite !elem_of_cons, elem_of_nil in Hm.
      destruct Hm as [->|[->|[->|[->|[]]]]]; reflexivity. }
    unfold proxy_get. cbn [createHonoQueryProxy proxy_client proxy_path].
    rewrite proxyHandlers_get_method by done.
    by rewrite (bind_thrown _ _ _ _ _ Hred).
Qed.

Lemma C8_unresolvable_path_witness :
  reduce ([] ++ "missing" :: ["x"]) blog [] = (Thrown TypeError, [])
  /\ UseQuery.queryFn (useQuery blog ([] ++ "missing" :: ["x"]) JUndefined) []
     = (Thrown TypeError, []).
Proof.
  assert (reduce ([] ++ ["missing"]) blog [] = (Returned TUndefined, [])) as Hpre
    by (vm_compute; reflexivity).
  assert (["x"] <> []) as Hrest by discriminate.
  destruct (C8_unresolvable_path blog [] ["x"] "missing" [] Hpre Hrest) as (Hred & Hq & _).
  split; [exact Hred|]. apply (Hq JUndefined).
Defined.

(** ** The utils proxy *)

(** C9. At every path the utils proxy answers [invalidate] with an
    operation that issues exactly one invalidation to the store, whose key
    is the segments of the path and nothing more; any other property yields
    the utils proxy of the path extended by that property. *)
Theorem C9_utils_invalidate (path : list string) (property : string) (t : list Event) :
  (exists invalidate,
      createUtilsProxy_get path "invalidate" = UInvalidate invalidate
      /\ invalidate t = (Returned tt, t ++ [EvInvalidate (JStr <$> path)]))
  /\ (property <> "invalidate" ->
      createUtilsProxy_get path property = UProxy (path ++ [property])).
Proof.
  split.
  - eexists. split; reflexivity.
  - intros Hne. unfold createUtilsProxy_get.
    destruct (String.eqb property "invalidate") eqn:Heq; [|done].
    by apply String.eqb_eq in Heq.
Qed.

Lemma C9_utils_invalidate_witness :
  createUtilsProxy_get ["users"] ":id" = UProxy (["users"] ++ [":id"]).
Proof.
  apply (proj2 (C9_utils_invalidate ["users"] ":id" [])). discriminate.
Defined.

(** ** The message of a request error *)

(** C10 fails in its last part: with an empty status text (as HTTP/2
    responses have) and a payload without a message, the message of the
    error is empty; so it is for a payload whose message is an empty
    array, whatever the status text. *)
Lemma C10_empty_message_counterexample :
  newHonoQueryError
    {| ok := false; status := 500; statusText := ""; json := Some (JObj ∅) |} (JObj ∅)
  = Returned {| name := "HonoQueryError"; message := "";
                response := {| ok := false; status := 500; statusText := "";
                               json := Some (JObj ∅) |};
                data := JObj ∅ |}
  /\ (createMethodMutation_mutationFn
        (TObject {[ "users" := TObject {[
           "$post" := TCallable (respond false 500 "" None) ]} ]})
        ["users"] "post" JNull []).1
     = Thrown (RequestError
         {| name := "HonoQueryError"; message := "";
            response := {| ok := false; status := 500; statusText := ""; json := None |};
            data := JObj {[ "message" := JStr "" ]} |})
  /\ newHonoQueryError
       {| ok := false; status := 400; statusText := "Bad Request"; json := None |}
       (JObj {[ "message" := JArr [] ]})
     = Returned {| name := "HonoQueryError"; message := "";
                   response := {| ok := false; status := 400; statusText := "Bad Request";
                                  json := None |};
                   data := JObj {[ "message" := JArr [] ]} |}.
Proof. repeat (split; [vm_compute; reflexivity|]). vm_compute. reflexivity. Qed.

Lemma truthy_string_nonempty (s : string) : truthy (JStr s) = true <-> s <> "".
Proof.
  cbn. destruct (String.eqb s "") eqn:Heq; cbn.
  - apply String.eqb_eq in Heq. split; [done|]. by intros [].
  - apply String.eqb_neq in Heq. done.
Qed.

(** What the constructor builds, when it builds. *)
Lemma newHonoQueryError_returned (res : Response) (payload : JsValue) (e : HonoQueryError) :
  newHonoQueryError res payload = Returned e ->
  toString (js_or (opt_get payload "message") (JStr (statusText res)))
  = Returned (message e)
  /\ name e = "HonoQueryError" /\ response e = res /\ data e = payload.
Proof.
  unfold newHonoQueryError.
  destruct (toString _) as [text| |]; [|done|done]. by intros [= <-].
Qed.

(** C10, amended. The message of a constructed [HonoQueryError] is the
    payload's message property, converted to a string, when that property is
    present and truthy (the property itself when it is a string), and the
    status text of the response otherwise; it is not empty when it comes
    from a string property, nor when it is a status text that is not
    empty. *)
Theorem C10_error_message (res : Response) (payload : JsValue) (e : HonoQueryError) :
  newHonoQueryError res payload = Returned e ->
  (truthy (opt_get payload "message") = true ->
   toString (opt_get payload "message") = Returned (message e))
  /\ (forall s, opt_get payload "message" = JStr s -> s <> "" ->
      message e = s /\ message e <> "")
  /\ (truthy (opt_get payload "message") = false ->
      message e = statusText res
      /\ (statusText res <> "" -> message e <> ""))
  /\ response e = res
  /\ data e = payload.
Proof.
  intros He. apply newHonoQueryError_returned in He as (Hmsg & _ & Hres & Hdata).
  unfold js_or in Hmsg. split; [|split; [|split; [|done]]].
  - intros Ht. by rewrite Ht in Hmsg.
  - intros s Hs Hne. rewrite Hs, (proj2 (truthy_string_nonempty s) Hne) in Hmsg.
    cbn in Hmsg. injection Hmsg as <-. done.
  - intros Hf. rewrite Hf in Hmsg. cbn in Hmsg. injection Hmsg as <-. done.
Qed.

Lemma C10_error_message_witness :
  message {| name := "HonoQueryError"; message := "No such user";
             response := {| ok := false; status := 404; statusText := "Not Found";
                            json := None |};
             data := JObj {[ "message" := JStr "No such user" ]} |} = "No such user"
  /\ message {| name := "HonoQueryError"; message := "Not Found";
                response := {| ok := false; status := 404; statusText := "Not Found";
                               json := None |};
                data := JObj {[ "code" := JNum 7 ]} |} = statusText
       {| ok := false; status := 404; statusText := "Not Found"; json := None |}.
Proof.
  assert (newHonoQueryError
            {| ok := false; status := 404; statusText := "Not Found"; json := None |}
            (JObj {[ "message" := JStr "No such user" ]})
          = Returned {| name := "HonoQueryError"; message := "No such user";
                        response := {| ok := false; status := 404; statusText := "Not Found";
                                       json := None |};
                        data := JObj {[ "message" := JStr "No such user" ]} |}) as H1
    by (vm_compute; reflexivity).
  assert (newHonoQueryError
            {| ok := false; status := 404; statusText := "Not Found"; json := None |}
            (JObj {[ "code" := JNum 7 ]})
          = Returned {| name := "HonoQueryError"; message := "Not Found";
                        response := {| ok := false; status := 404; statusText := "Not Found";
                                       json := None |};
                        data := JObj {[ "code" := JNum 7 ]} |}) as H2
    by (vm_compute; reflexivity).
  split.
  - apply (proj1 (proj2 (C10_error_message _ _ _ H1)) "No such user");
      [vm_compute; reflexivity | discriminate].
  - apply (proj1 (proj2 (proj2 (C10_error_message _ _ _ H2)))). vm_compute. reflexivity.
Defined.

(** * Further properties of the engine *)

(** ** The outcome of a dispatch *)

(** Calling a callable of a handle and unwrapping its answer. *)
Lemma dispatch_callable (props : gmap string Transport) (key : string)
    (call : JsValue -> Exn + Response) (input : JsValue) (t : list Event) :
  props !! key = Some (TCallable call) ->
  (invoke (TObject props) key input ≫= unwrap) t
  = match call input with
    | inl e => (Thrown e, t ++ [EvRequest key input])
    | inr res => ((unwrap res []).1, t ++ [EvRequest key input])
    end.
Proof.
  intros Hkey. unfold invoke, index, mbind, M_bind, mret, M_ret, emit, throw.
  rewrite Hkey. cbn. destruct (call input) as [e|res]; [done|].
  by rewrite unwrap_trace.
Qed.

Lemma mutationFn_dispatch (client : Transport) (path : list string)
    (props : gmap string Transport) (method : string)
    (call : JsValue -> Exn + Response) (variables : JsValue) (t : list Event) :
  reduce path client t = (Returned (TObject props), t) ->
  props !! ("$" +:+ toLowerCase method) = Some (TCallable call) ->
  createMethodMutation_mutationFn client path method variables t
  = (invoke (TObject props) ("$" +:+ toLowerCase method) variables ≫= unwrap) t.
Proof.
  intros Hred Hkey. unfold createMethodMutation_mutationFn.
  rewrite (bind_returned _ _ _ _ _ Hred).
  assert (has_in ("$" +:+ toLowerCase method) (TObject props) t = (Returned true, t)) as Hhas.
  { unfold has_in. by rewrite Hkey. }
  by rewrite (bind_returned _ _ _ _ _ Hhas).
Qed.

Lemma queryFn_dispatch (client : Transport) (path : list string)
    (rpc : Transport) (input : JsValue) (t : list Event) :
  reduce path client t = (Returned rpc, t) ->
  UseQuery.queryFn (useQuery client path input) t
  = (invoke rpc "$get" input ≫= unwrap) t.
Proof.
  intros Hred. cbn [useQuery UseQuery.queryFn]. by rewrite (bind_returned _ _ _ _ _ Hred).
Qed.

Lemma infinite_queryFn_dispatch (client : Transport) (path : list string)
    (rpc : Transport) (input pageParam : JsValue) (t : list Event) :
  reduce path client t = (Returned rpc, t) ->
  UseInfiniteQuery.queryFn (useInfiniteQuery client path input) pageParam t
  = (invoke rpc "$get" (finalInput input pageParam) ≫= unwrap) t.
Proof.
  intros Hred. cbn [useInfiniteQuery UseInfiniteQuery.queryFn].
  by rewrite (bind_returned _ _ _ _ _ Hred).
Qed.

(** The three fetch functions, once the path has resolved to a handle whose
    callable answers [answer]: the outcome [o] that [decide] reads off the
    answer, after exactly one transport call. *)
Lemma fetch_functions_answer (client : Transport) (path : list string)
    (props : gmap string Transport) (call : JsValue -> Exn + Response)
    (answer : Exn + Response) (o : Outcome JsValue) (t : list Event) :
  reduce path client t = (Returned (TObject props), t) ->
  match answer with
  | inl e => Thrown e
  | inr res => (unwrap res []).1
  end = o ->
  (forall method variables,
      props !! ("$" +:+ toLowerCase method) = Some (TCallable call) ->
      call variables = answer ->
      createMethodMutation_mutationFn client path method variables t
      = (o, t ++ [EvRequest ("$" +:+ toLowerCase method) variables]))
  /\ (forall input,
      props !! "$get" = Some (TCallable call) ->
      call input = answer ->
      UseQuery.queryFn (useQuery client path input) t
      = (o, t ++ [EvRequest "$get" input]))
  /\ (forall input pageParam,
      props !! "$get" = Some (TCallable call) ->
      call (finalInput input pageParam) = answer ->
      UseInfiniteQuery.queryFn (useInfiniteQuery client path input) pageParam t
      = (o, t ++ [EvRequest "$get" (finalInput input pageParam)])).
Proof.
  intros Hred Ho. split; [|split].
  - intros method variables Hkey Hcall.
    rewrite (mutationFn_dispatch _ _ _ _ _ _ _ Hred Hkey), (dispatch_callable _ _ _ _ _ Hkey).
    rewrite Hcall. subst o. by destruct answer.
  - intros input Hkey Hcall.
    rewrite (queryFn_dispatch _ _ _ _ _ Hred), (dispatch_callable _ _ _ _ _ Hkey).
    rewrite Hcall. subst o. by destruct answer.
  - intros input pageParam Hkey Hcall.
    rewrite (infinite_queryFn_dispatch _ _ _ _ _ _ Hred), (dispatch_callable _ _ _ _ _ Hkey).
    rewrite Hcall. subst o. by destruct answer.
Qed.

(** X1. When the path resolves to a handle whose callable answers with a
    response that has the success flag and a body that parses, each of the
    three fetch functions returns the parsed body, having made exactly one
    transport call with the input it was given (the merged input for a page
    request). *)
Theorem dispatch_success
    (client : Transport) (path : list string) (props : gmap string Transport)
    (call : JsValue -> Exn + Response) (res : Response) (body : JsValue)
    (t : list Event) :
  reduce path client t = (Returned (TObject props), t) ->
  ok res = true ->
  json res = Some body ->
  (forall method variables,
      props !! ("$" +:+ toLowerCase method) = Some (TCallable call) ->
      call variables = inr res ->
      createMethodMutation_mutationFn client path method variables t
      = (Returned body, t ++ [EvRequest ("$" +:+ toLowerCase method) variables]))
  /\ (forall input,
      props !! "$get" = Some (TCallable call) ->
      call input = inr res ->
      UseQuery.queryFn (useQuery client path input) t
      = (Returned body, t ++ [EvRequest "$get" input]))
  /\ (forall input pageParam,
      props !! "$get" = Some (TCallable call) ->
      call (finalInput input pageParam) = inr res ->
      UseInfiniteQuery.queryFn (useInfiniteQuery client path input) pageParam t
      = (Returned body, t ++ [EvRequest "$get" (finalInput input pageParam)])).
Proof.
  intros Hred Hok Hjson. apply fetch_functions_answer; [done|].
  unfold unwrap, res_json. by rewrite Hok, Hjson.
Qed.

Lemma dispatch_success_witness :
  UseQuery.queryFn (useQuery blog ["posts"] JUndefined) []
  = (Returned (JArr []), [] ++ [EvRequest "$get" JUndefined]).
Proof.
  assert (reduce ["posts"] blog [] = (Returned (TObject blog_posts), [])) as Hred
    by (vm_compute; reflexivity).
  apply (proj1 (proj2 (dispatch_success blog ["posts"] blog_posts
           (respond true 200 "OK" (Some (JArr [])))
           {| ok := true; status := 200; statusText := "OK"; json := Some (JArr []) |}
           (JArr []) [] Hred eq_refl eq_refl)) JUndefined).
  - vm_compute. reflexivity.
  - reflexivity.
Defined.

(** X2. When the response has the success flag but its body does not
    parse, each of the three fetch functions fails with the parser's
    [SyntaxError]: on the success path the failure to parse is not replaced
    by a fallback payload, and no [HonoQueryError] is built. *)
Theorem success_body_parse_failure
    (client : Transport) (path : list string) (props : gmap string Transport)
    (call : JsValue -> Exn + Response) (res : Response) (t : list Event) :
  reduce path client t = (Returned (TObject props), t) ->
  ok res = true ->
  json res = None ->
  (forall method variables,
      props !! ("$" +:+ toLowerCase method) = Some (TCallable call) ->
      call variables = inr res ->
      createMethodMutation_mutationFn client path method variables t
      = (Thrown SyntaxError, t ++ [EvRequest ("$" +:+ toLowerCase method) variables]))
  /\ (forall input,
      props !! "$get" = Some (TCallable call) ->
      call input = inr res ->
      UseQuery.queryFn (useQuery client path input) t
      = (Thrown SyntaxError, t ++ [EvRequest "$get" input]))
  /\ (forall input pageParam,
      props !! "$get" = Some (TCallable call) ->
      call (finalInput input pageParam) = inr res ->
      UseInfiniteQuery.queryFn (useInfiniteQuery client path input) pageParam t
      = (Thrown SyntaxError, t ++ [EvRequest "$get" (finalInput input pageParam)])).
Proof.
  intros Hred Hok Hjson. apply fetch_functions_answer; [done|].
  unfold unwrap, res_json. by rewrite Hok, Hjson.
Qed.

Lemma success_body_parse_failure_witness :
  createMethodMutation_mutationFn garbled ["users"] "post" JNull []
  = (Thrown SyntaxError, [] ++ [EvRequest "$post" JNull]).
Proof.
  assert (reduce ["users"] garbled [] = (Returned (TObject garbled_users), [])) as Hred
    by (vm_compute; reflexivity).
  apply (proj1 (success_body_parse_failure garbled ["users"] garbled_users
           (respond true 200 "OK" None)
           {| ok := true; status := 200; statusText := "OK"; json := None |}
           [] Hred eq_refl eq_refl) "post" JNull).
  - vm_compute. reflexivity.
  - reflexivity.
Defined.

(** X3. When the transport callable itself rejects (the request never got
    an answer), each of the three fetch functions fails with that very
    rejection, after the one transport call: it is not wrapped in a
    [HonoQueryError]. *)
Theorem transport_rejection_propagates
    (client : Transport) (path : list string) (props : gmap string Transport)
    (call : JsValue -> Exn + Response) (e : Exn) (t : list Event) :
  reduce path client t = (Returned (TObject props), t) ->
  (forall method variables,
      props !! ("$" +:+ toLowerCase method) = Some (TCallable call) ->
      call variables = inl e ->
      createMethodMutation_mutationFn client path method variables t
      = (Thrown e, t ++ [EvRequest ("$" +:+ toLowerCase method) variables]))
  /\ (forall input,
      props !! "$get" = Some (TCallable call) ->
      call input = inl e ->
      UseQuery.queryFn (useQuery client path input) t
      = (Thrown e, t ++ [EvRequest "$get" input]))
  /\ (forall input pageParam,
      props !! "$get" = Some (TCallable call) ->
      call (finalInput input pageParam) = inl e ->
      UseInfiniteQuery.queryFn (useInfiniteQuery client path input) pageParam t
      = (Thrown e, t ++ [EvRequest "$get" (finalInput input pageParam)])).
Proof.
  intros Hred. by apply (fetch_functions_answer _ _ _ _ (inl e)).
Qed.

Lemma transport_rejection_propagates_witness :
  UseInfiniteQuery.queryFn (useInfiniteQuery offline ["users"] limit10) (JStr "c2") []
  = (Thrown TypeError, [] ++ [EvRequest "$get" (finalInput limit10 (JStr "c2"))]).
Proof.
  assert (reduce ["users"] offline [] = (Returned (TObject offline_users), [])) as Hred
    by (vm_compute; reflexivity).
  apply (proj2 (proj2 (transport_rejection_propagates offline ["users"] offline_users
           (fun _ => inl TypeError) TypeError [] Hred)) limit10 (JStr "c2")).
  - vm_compute. reflexivity.
  - reflexivity.
Defined.

(** ** What a fetch function does to its collaborators *)

Lemma dispatch_trace (rpc : Transport) (key : string) (input : JsValue) (t : list Event) :
  ((invoke rpc key input ≫= unwrap) t).2 = t
  \/ ((invoke rpc key input ≫= unwrap) t).2 = t ++ [EvRequest key input].
Proof.
  destruct rpc as [|props|call0]; [by left| |].
  - destruct (props !! key) as [[| |call]|] eqn:Hkey.
    + left. unfold invoke, index, mbind, M_bind, mret, M_ret. by rewrite Hkey.
    + left. unfold invoke, index, mbind, M_bind, mret, M_ret. by rewrite Hkey.
    + right. rewrite (dispatch_callable _ _ _ _ _ Hkey). by destruct (call input).
    + left. unfold invoke, index, mbind, M_bind, mret, M_ret. rewrite Hkey.
      by destruct (bool_decide _).
  - left. unfold invoke, index, mbind, M_bind, mret, M_ret.
    by destruct (bool_decide _).
Qed.

Lemma mutationFn_trace (client : Transport) (path : list string) (method : string)
    (variables : JsValue) (t : list Event) :
  (createMethodMutation_mutationFn client path method variables t).2 = t
  \/ (createMethodMutation_mutationFn client path method variables t).2
     = t ++ [EvRequest ("$" +:+ toLowerCase method) variables].
Proof.
  destruct (createMethodMutation_mutationFn client path method variables t)
    as [o t'] eqn:Hr. cbn [snd].
  unfold createMethodMutation_mutationFn, mbind at 1, M_bind at 1 in Hr.
  rewrite reduce_trace in Hr.
  destruct (reduce path client []).1 as [rpc| |];
    [|left; by injection Hr|left; by injection Hr].
  unfold mbind at 1, M_bind at 1 in Hr. rewrite has_in_trace in Hr.
  destruct (has_in _ rpc []).1 as [[|]| |]; cbn [negb] in Hr;
    [|left; by injection Hr|left; by injection Hr|left; by injection Hr].
  apply (f_equal snd) in Hr. cbn [snd] in Hr. rewrite <- Hr. apply dispatch_trace.
Qed.

(** X4. Whatever the client, the path and the input, a fetch function makes
    at most one transport call and nothing else: its trace is the one it
    started from, or that one followed by the single request, which carries
    the input unchanged.  It never invalidates and never retries. *)
Theorem fetch_makes_at_most_one_request
    (client : Transport) (path : list string) (t : list Event) :
  (forall method variables,
      (createMethodMutation_mutationFn client path method variables t).2 = t
      \/ (createMethodMutation_mutationFn client path method variables t).2
         = t ++ [EvRequest ("$" +:+ toLowerCase method) variables])
  /\ (forall input,
      (UseQuery.queryFn (useQuery client path input) t).2 = t
      \/ (UseQuery.queryFn (useQuery client path input) t).2
         = t ++ [EvRequest "$get" input])
  /\ (forall input pageParam,
      (UseInfiniteQuery.queryFn (useInfiniteQuery client path input) pageParam t).2 = t
      \/ (UseInfiniteQuery.queryFn (useInfiniteQuery client path input) pageParam t).2
         = t ++ [EvRequest "$get" (finalInput input pageParam)]).
Proof.
  split; [intros; apply mutationFn_trace|]. split.
  - intros input.
    destruct (UseQuery.queryFn (useQuery client path input) t) as [o t'] eqn:Hr. cbn [snd].
    cbn [useQuery UseQuery.queryFn] in Hr. unfold mbind at 1, M_bind at 1 in Hr.
    rewrite reduce_trace in Hr.
    destruct (reduce path client []).1 as [rpc| |];
      [|left; by injection Hr|left; by injection Hr].
    apply (f_equal snd) in Hr. cbn [snd] in Hr. rewrite <- Hr. apply dispatch_trace.
  - intros input pageParam.
    destruct (UseInfiniteQuery.queryFn (useInfiniteQuery client path input) pageParam t)
      as [o t'] eqn:Hr. cbn [snd].
    cbn [useInfiniteQuery UseInfiniteQuery.queryFn] in Hr.
    unfold mbind at 1, M_bind at 1 in Hr. rewrite reduce_trace in Hr.
    destruct (reduce path client []).1 as [rpc| |];
      [|left; by injection Hr|left; by injection Hr].
    apply (f_equal snd) in Hr. cbn [snd] in Hr. rewrite <- Hr. apply dispatch_trace.
Qed.

(** ** Handles that are not what the path promises *)

Lemma mutating_method_lower (property : string) :
  property ∈ ["post"; "put"; "patch"; "delete"] ->
  toLowerCase property = property
  /\ includes ["post"; "put"; "patch"; "delete"] property = true.
Proof.
  rewrite !elem_of_cons, elem_of_nil.
  intros [->|[->|[->|[->|[]]]]]; split; reflexivity.
Qed.

(** X6. The capability check tests the presence of the method's property,
    not that it can be called: where the handle has a [$method] property
    that is not a callable, the proxy hands out the mutation hook, and
    the mutation function fails with the runtime's [TypeError] without a
    transport call. *)
Theorem present_but_not_callable
    (client : Transport) (path : list string) (props : gmap string Transport)
    (property : string) (v : Transport) (t : list Event) :
  property ∈ ["post"; "put"; "patch"; "delete"] ->
  reduce path client t = (Returned (TObject props), t) ->
  props !! ("$" +:+ property) = Some v ->
  (forall call, v <> TCallable call) ->
  (exists get,
      proxy_get (createHonoQueryProxy client path) property t
      = (Returned (PMethodProxy get), t)
      /\ get "useMutation" = Some (createMethodMutation client path property))
  /\ (forall variables,
      createMethodMutation_mutationFn client path property variables t
      = (Thrown TypeError, t)).
Proof.
  intros Hm Hred Hkey Hv. destruct (mutating_method_lower _ Hm) as [Hlow Hinc].
  assert (has_in ("$" +:+ property) (TObject props) t = (Returned true, t)) as Hhas.
  { unfold has_in. by rewrite Hkey. }
  split.
  - unfold proxy_get. cbn [createHonoQueryProxy proxy_client proxy_path].
    rewrite proxyHandlers_get_method by done.
    rewrite (bind_returned _ _ _ _ _ Hred), (bind_returned _ _ _ _ _ Hhas).
    eexists. split; reflexivity.
  - intros variables. unfold createMethodMutation_mutationFn.
    rewrite (bind_returned _ _ _ _ _ Hred). rewrite Hlow.
    rewrite (bind_returned _ _ _ _ _ Hhas). cbn [negb].
    unfold invoke, index, mbind, M_bind, mret, M_ret, throw. rewrite Hkey. cbn.
    destruct v as [| |call]; [done|done|]. by destruct (Hv call).
Qed.

Lemma present_but_not_callable_witness :
  createMethodMutation_mutationFn misdeclared ["users"] "post" JNull []
  = (Thrown TypeError, []).
Proof.
  assert (reduce ["users"] misdeclared [] = (Returned (TObject misdeclared_users), []))
    as Hred by (vm_compute; reflexivity).
  assert (misdeclared_users !! ("$" +:+ "post") = Some (TObject ∅)) as Hkey
    by (vm_compute; reflexivity).
  assert ("post" ∈ ["post"; "put"; "patch"; "delete"]) as Hm by (apply elem_of_cons; by left).
  assert (forall call, TObject ∅ <> TCallable call) as Hv by (intros call; discriminate).
  apply (proj2 (present_but_not_callable misdeclared ["users"] misdeclared_users
                  "post" (TObject ∅) [] Hm Hred Hkey Hv) JNull).
Defined.

(** X7. When the path resolves to [undefined] (its last segment is missing
    on the transport object), nothing is called: the query hooks are still
    handed out and their fetch functions fail with [TypeError]; a mutation
    function fails with [TypeError]; and the access to a mutating method
    name on the proxy itself throws [TypeError]. *)
Theorem missing_final_segment
    (client : Transport) (path : list string) (t : list Event) :
  reduce path client t = (Returned TUndefined, t) ->
  (forall input,
      proxy_get (createHonoQueryProxy client path) "useQuery" t
      = (Returned (PUseQuery (useQuery client path)), t)
      /\ UseQuery.queryFn (useQuery client path input) t = (Thrown TypeError, t))
  /\ (forall input pageParam,
      UseInfiniteQuery.queryFn (useInfiniteQuery client path input) pageParam t
      = (Thrown TypeError, t))
  /\ (forall method variables,
      createMethodMutation_mutationFn client path method variables t
      = (Thrown TypeError, t))
  /\ (forall property, property ∈ ["post"; "put"; "patch"; "delete"] ->
      proxy_get (createHonoQueryProxy client path) property t = (Thrown TypeError, t)).
Proof.
  intros Hred. split; [|split; [|split]].
  - intros input. split; [reflexivity|].
    by rewrite (queryFn_dispatch _ _ _ _ _ Hred).
  - intros input pageParam. by rewrite (infinite_queryFn_dispatch _ _ _ _ _ _ Hred).
  - intros method variables. unfold createMethodMutation_mutationFn.
    by rewrite (bind_returned _ _ _ _ _ Hred).
  - intros property Hm. destruct (mutating_method_lower _ Hm) as [_ Hinc].
    unfold proxy_get. cbn [createHonoQueryProxy proxy_client proxy_path].
    rewrite proxyHandlers_get_method by done.
    by rewrite (bind_returned _ _ _ _ _ Hred).
Qed.

Lemma missing_final_segment_witness :
  UseQuery.queryFn (useQuery blog ["comments"] JUndefined) [] = (Thrown TypeError, [])
  /\ proxy_get (createHonoQueryProxy blog ["comments"]) "delete" [] = (Thrown TypeError, []).
Proof.
  assert (reduce ["comments"] blog [] = (Returned TUndefined, [])) as Hred
    by (vm_compute; reflexivity).
  destruct (missing_final_segment blog ["comments"] [] Hred) as (Hq & _ & _ & Hp).
  split; [apply (Hq JUndefined)|].
  apply Hp. apply elem_of_cons. right. apply elem_of_cons. right.
  apply elem_of_cons. right. apply elem_of_cons. by left.
Defined.

(** ** What a chain of property accesses can reach *)

Lemma includes_not_elem_of (array : list string) (x : string) :
  includes array x = false -> x ∉ array.
Proof.
  unfold includes. induction array as [|y rest IH]; cbn; [intros _; apply not_elem_of_nil|].
  destruct (String.eqb x y) eqn:Heq; cbn; [done|].
  apply String.eqb_neq in Heq. intros H. apply not_elem_of_cons. split; [done|by apply IH].
Qed.

Lemma plain_spec (property : string) :
  plain property = true ->
  (property ∉ ["useQuery"; "useInfiniteQuery"; "post"; "put"; "patch"; "delete"])
  /\ startsWith property "$" = false.
Proof.
  unfold plain. rewrite !andb_true_iff, !negb_true_iff.
  intros [[[Hq Hi] Hm] Hs]. split; [|done].
  apply String.eqb_neq in Hq. apply String.eqb_neq in Hi.
  apply includes_not_elem_of in Hm.
  apply not_elem_of_cons. split; [done|]. apply not_elem_of_cons. by split.
Qed.

(** The only accesses that yield a proxy are those of plain names, and the
    proxy is the one at the extended path. *)
Lemma proxy_get_proxy_inv (client : Transport) (path : list string) (s : string)
    (q : Proxy) (t t' : list Event) :
  proxy_get (createHonoQueryProxy client path) s t = (Returned (PProxy q), t') ->
  plain s = true /\ q = createHonoQueryProxy client (path ++ [s]).
Proof.
  unfold proxy_get, proxyHandlers_get, plain.
  cbn [createHonoQueryProxy proxy_client proxy_path].
  destruct (String.eqb s "useQuery"); [done|].
  destruct (String.eqb s "useInfiniteQuery"); [done|].
  destruct (includes _ s).
  - unfold mbind, M_bind. destruct (reduce path client t) as [[rpc| |] t0]; [|done|done].
    destruct (has_in _ rpc t0) as [[[|]| |] t1]; done.
  - destruct (startsWith s "$"); [done|]. by intros [= <- _].
Qed.

Lemma reaches_inv (client : Transport) (path segments : list string) (q : Proxy) :
  reaches (createHonoQueryProxy client path) segments q ->
  forallb plain segments = true /\ q = createHonoQueryProxy client (path ++ segments).
Proof.
  intros H. remember (createHonoQueryProxy client path) as p eqn:Hp.
  revert path Hp. induction H as [p|p q r s rest t Hget _ IH]; intros path ->.
  - by rewrite app_nil_r.
  - apply proxy_get_proxy_inv in Hget as [Hs ->].
    destruct (IH _ eq_refl) as [Hrest ->]. cbn. rewrite Hs, Hrest.
    by rewrite <- app_assoc.
Qed.

(** X8. Whatever chain of property accesses leads from the root proxy to a
    proxy, that proxy closes over the same client, its path is exactly the
    names accessed, and none of them is a hook trigger or starts with the
    method sigil. *)
Theorem traversal_keeps_reserved_names_out
    (client : Transport) (segments : list string) (q : Proxy) :
  reaches (createHonoQueryProxy client []) segments q ->
  proxy_client q = client
  /\ proxy_path q = segments
  /\ Forall (fun s =>
       (s ∉ ["useQuery"; "useInfiniteQuery"; "post"; "put"; "patch"; "delete"])
       /\ startsWith s "$" = false) (proxy_path q).
Proof.
  intros H. apply reaches_inv in H as [Hall ->]. cbn. split; [done|]. split; [done|].
  apply Forall_forall. intros s Hs. apply plain_spec.
  rewrite forallb_forall in Hall. apply Hall. by apply list_elem_of_In.
Qed.

Lemma traversal_keeps_reserved_names_out_witness :
  proxy_path (createHonoQueryProxy blog ["posts"; ":id"]) = ["posts"; ":id"].
Proof.
  assert (reaches (createHonoQueryProxy blog []) ["posts"; ":id"]
            (createHonoQueryProxy blog ["posts"; ":id"])) as Hreach.
  { apply (reaches_plain blog [] ["posts"; ":id"]). reflexivity. }
  apply (traversal_keeps_reserved_names_out blog ["posts"; ":id"] _ Hreach).
Defined.

(** X9. Resolving the path of a proxy reached by a chain of accesses is
    resolving the path of the proxy the chain started from and then indexing
    by the names accessed, one after the other: the handle a fetch function
    resolves is the one direct indexed access gives. *)
Theorem path_fidelity
    (client : Transport) (path segments : list string) (q : Proxy) (t : list Event) :
  reaches (createHonoQueryProxy client path) segments q ->
  reduce (proxy_path q) (proxy_client q) t = (reduce path client ≫= reduce segments) t.
Proof.
  intros H. apply reaches_inv in H as [_ ->]. cbn. apply reduce_app.
Qed.

Lemma path_fidelity_witness :
  reduce (proxy_path (createHonoQueryProxy blog ["posts"; ":id"]))
         (proxy_client (createHonoQueryProxy blog ["posts"; ":id"])) []
  = (reduce ["posts"] blog ≫= reduce [":id"]) [].
Proof.
  assert (reaches (createHonoQueryProxy blog ["posts"]) [":id"]
            (createHonoQueryProxy blog ["posts"; ":id"])) as Hreach.
  { apply (reaches_plain blog ["posts"] [":id"]). reflexivity. }
  apply (path_fidelity blog ["posts"] [":id"] _ [] Hreach).
Defined.

(** ** The utils proxy, from the provider's root *)

Lemma createUtilsProxy_get_proxy_inv (path path' : list string) (s : string) :
  createUtilsProxy_get path s = UProxy path' ->
  s <> "invalidate" /\ path' = path ++ [s].
Proof.
  unfold createUtilsProxy_get. destruct (String.eqb s "invalidate") eqn:Heq; [done|].
  apply String.eqb_neq in Heq. by intros [= <-].
Qed.

Lemma createUtilsProxy_get_other (path : list string) (s : string) :
  s <> "invalidate" -> createUtilsProxy_get path s = UProxy (path ++ [s]).
Proof.
  intros Hne. unfold createUtilsProxy_get.
  apply String.eqb_neq in Hne. by rewrite Hne.
Qed.

(** X10. On the utils proxy every name but [invalidate] is a path segment,
    hook triggers and sigil-prefixed names included: a chain of accesses
    yields utils proxies all the way exactly when none of the names is
    [invalidate], it then ends at the path extended by the names, and
    [invalidate] there issues the one invalidation of that path's key.
    From the provider's root (the empty path) the key is the names
    themselves. *)
Theorem utils_traversal (path segments : list string) :
  (("invalidate" ∉ segments) -> utils_reaches path segments (path ++ segments))
  /\ (forall r, utils_reaches path segments r ->
        ("invalidate" ∉ segments) /\ r = path ++ segments)
  /\ (exists invalidate,
        createUtilsProxy_get (path ++ segments) "invalidate" = UInvalidate invalidate
        /\ forall t, invalidate t
                     = (Returned tt, t ++ [EvInvalidate (JStr <$> path ++ segments)])).
Proof.
  split; [|split].
  - revert path. induction segments as [|s rest IH]; intros path Hnot.
    + rewrite app_nil_r. constructor.
    + apply not_elem_of_cons in Hnot as [Hs Hrest].
      eapply utils_reaches_cons.
      * apply createUtilsProxy_get_other. done.
      * replace (path ++ s :: rest) with ((path ++ [s]) ++ rest) by by rewrite <- app_assoc.
        by apply IH.
  - intros r H. induction H as [path|path path' r s rest Hget _ IH].
    + split; [apply not_elem_of_nil|by rewrite app_nil_r].
    + apply createUtilsProxy_get_proxy_inv in Hget as [Hs ->].
      destruct IH as [Hrest ->]. split.
      * apply not_elem_of_cons. by split.
      * by rewrite <- app_assoc.
  - eexists. split; reflexivity.
Qed.

Lemma utils_traversal_witness :
  utils_reaches [] ["users"; "$get"; "useQuery"] ([] ++ ["users"; "$get"; "useQuery"]).
Proof.
  apply (proj1 (utils_traversal [] ["users"; "$get"; "useQuery"])).
  rewrite !not_elem_of_cons. repeat split; try discriminate. apply not_elem_of_nil.
Defined.

(** ** Invalidation keys against query keys *)

Lemma invalidationSet_cases (path : list string) (d v c : JsValue) (k : list JsValue) :
  k ∈ invalidationSet path d v c ->
  k = JStr <$> path \/ exists init seg, path = init ++ [seg] /\ k = JStr <$> init.
Proof.
  destruct path as [|seg init _] using rev_ind.
  - rewrite invalidationSet_collection by done. intros ->%list_elem_of_singleton. by left.
  - destruct (startsWith seg ":") eqn:Hseg.
    + rewrite invalidationSet_resource by done.
      rewrite !elem_of_cons, elem_of_nil. intros [->|[->|[]]]; [right; eauto|by left].
    + rewrite invalidationSet_collection.
      * intros ->%list_elem_of_singleton. by left.
      * intros s. rewrite last_snoc. by intros [= <-].
Qed.

(** X11. Every key a mutation at [path] invalidates is a prefix of the key
    of every query, single or paged, at [path] or below it, whatever the
    input; and the collection key of a resource mutation is a prefix of the
    key of every query at or below the collection.  So the store's prefix
    match reaches those queries. *)
Theorem invalidation_keys_prefix_query_keys
    (client : Transport) (path more : list string) (input d v c : JsValue) :
  (forall k, k ∈ invalidationSet path d v c ->
      k `prefix_of` UseQuery.queryKey (useQuery client (path ++ more) input)
      /\ k `prefix_of`
           UseInfiniteQuery.queryKey (useInfiniteQuery client (path ++ more) input))
  /\ (forall init seg, path = init ++ [seg] -> startsWith seg ":" = true ->
      (JStr <$> init) ∈ invalidationSet path d v c
      /\ (JStr <$> init)
           `prefix_of` UseQuery.queryKey (useQuery client (init ++ more) input)
      /\ (JStr <$> init)
           `prefix_of`
           UseInfiniteQuery.queryKey (useInfiniteQuery client (init ++ more) input)).
Proof.
  split.
  - intros k Hk. cbn [useQuery UseQuery.queryKey useInfiniteQuery UseInfiniteQuery.queryKey].
    assert (k `prefix_of` (JStr <$> path ++ more) ++ [input]) as Hpre; [|done].
    apply invalidationSet_cases in Hk as [->|(init & seg & -> & ->)].
    + rewrite fmap_app, <- app_assoc. by apply prefix_app_r.
    + rewrite !fmap_app, <- !app_assoc. by apply prefix_app_r.
  - intros init seg -> Hseg.
    cbn [useQuery UseQuery.queryKey useInfiniteQuery UseInfiniteQuery.queryKey].
    split; [rewrite invalidationSet_resource by done; apply elem_of_cons; by left|].
    assert ((JStr <$> init) `prefix_of` (JStr <$> init ++ more) ++ [input]) as Hpre; [|done].
    rewrite fmap_app, <- app_assoc. by apply prefix_app_r.
Qed.

Lemma invalidation_keys_prefix_query_keys_witness :
  [JStr "posts"] ∈ invalidationSet ["posts"; ":id"] JNull JNull JNull
  /\ [JStr "posts"] `prefix_of` UseQuery.queryKey (useQuery blog (["posts"] ++ []) limit10).
Proof.
  destruct (proj2 (invalidation_keys_prefix_query_keys blog ["posts"; ":id"] [] limit10
                     JNull JNull JNull) ["posts"] ":id" eq_refl eq_refl) as (Hin & Hq & _).
  split; [exact Hin | exact Hq].
Defined.

Lemma key_inj (p1 p2 : list string) (i1 i2 : JsValue) :
  (JStr <$> p1) ++ [i1] = (JStr <$> p2) ++ [i2] -> p1 = p2 /\ i1 = i2.
Proof.
  intros H. apply app_inj_2 in H as [Hp [= Hi]]; [|done].
  split; [|done]. revert p2 Hp.
  induction p1 as [|a p1 IH]; intros [|b p2] Hp; try done.
  cbn in Hp. injection Hp as -> Hp. f_equal. by apply IH.
Qed.

(** X12. Two query keys are equal exactly when the paths and the inputs are:
    queries at different paths or with different inputs never share a key,
    whereas a single query and a paged query at the same path with the same
    input always do. *)
Theorem query_keys_coincide_iff
    (client1 client2 : Transport) (p1 p2 : list string) (i1 i2 : JsValue) :
  (UseQuery.queryKey (useQuery client1 p1 i1) = UseQuery.queryKey (useQuery client2 p2 i2)
   <-> p1 = p2 /\ i1 = i2)
  /\ (UseQuery.queryKey (useQuery client1 p1 i1)
      = UseInfiniteQuery.queryKey (useInfiniteQuery client2 p2 i2)
      <-> p1 = p2 /\ i1 = i2).
Proof.
  cbn [useQuery UseQuery.queryKey useInfiniteQuery UseInfiniteQuery.queryKey].
  split; (split; [apply key_inj | by intros [-> ->]]).
Qed.

Lemma query_keys_coincide_iff_witness :
  UseQuery.queryKey (useQuery blog ["posts"] limit10)
  = UseInfiniteQuery.queryKey (useInfiniteQuery feed ["posts"] limit10).
Proof.
  apply (proj2 (proj2 (query_keys_coincide_iff blog feed ["posts"] ["posts"] limit10 limit10))).
  split; reflexivity.
Defined.

(** ** The input of a page request *)

(** X13. Merging a cursor into an input that was itself produced by a merge
    keeps only the later cursor: the page requests of a paged query do not
    accumulate cursors, and a [page] the caller put in the query is
    overwritten. *)
Theorem finalInput_last_cursor_wins (input c1 c2 : JsValue) :
  finalInput (finalInput input c1) c2 = finalInput input c2
  /\ (forall (props q : gmap string JsValue),
      props !! "query" = Some (JObj q) ->
      opt_get (finalInput (JObj props) c2) "query" = JObj (<["page" := c2]> q)).
Proof.
  split.
  - unfold finalInput. rewrite opt_get_insert_eq.
    cbn [nullish spread]. by rewrite !insert_insert_eq.
  - intros props q Hq. unfold finalInput. rewrite opt_get_insert_eq.
    unfold opt_get. by rewrite Hq.
Qed.

Lemma finalInput_last_cursor_wins_witness :
  opt_get (finalInput (JObj {[ "query" := JObj {[ "page" := JNum 7 ]} ]}) (JStr "c2")) "query"
  = JObj (<["page" := JStr "c2"]> {[ "page" := JNum 7 ]}).
Proof.
  apply (proj2 (finalInput_last_cursor_wins JNull JNull (JStr "c2"))
           {[ "query" := JObj {[ "page" := JNum 7 ]} ]} {[ "page" := JNum 7 ]}).
  vm_compute. reflexivity.
Defined.

(** X14. An input without a usable query still gets one: for an undefined
    or null input the request carries only the query holding the cursor, and
    for an object whose [query] is absent, undefined or null it carries the
    object's own fields and the query holding only the cursor. *)
Theorem finalInput_without_query (c : JsValue) :
  finalInput JUndefined c = JObj {[ "query" := JObj {[ "page" := c ]} ]}
  /\ finalInput JNull c = JObj {[ "query" := JObj {[ "page" := c ]} ]}
  /\ (forall props : gmap string JsValue,
      props !! "query" = None
      \/ props !! "query" = Some JUndefined
      \/ props !! "query" = Some JNull ->
      finalInput (JObj props) c = JObj (<["query" := JObj {[ "page" := c ]}]> props)).
Proof.
  split; [reflexivity|]. split; [reflexivity|].
  intros props Hq. unfold finalInput, opt_get.
  destruct Hq as [->|[->| ->]]; reflexivity.
Qed.

Lemma finalInput_without_query_witness :
  finalInput (JObj {[ "param" := JObj {[ "id" := JStr "1" ]} ]}) (JStr "c2")
  = JObj (<["query" := JObj {[ "page" := JStr "c2" ]}]>
            {[ "param" := JObj {[ "id" := JStr "1" ]} ]}).
Proof.
  apply (proj2 (proj2 (finalInput_without_query (JStr "c2")))
           {[ "param" := JObj {[ "id" := JStr "1" ]} ]}).
  left. vm_compute. reflexivity.
Defined.

(** ** The mutation hook and its provider *)

(** X15. Where the handle has the method, the proxy's answer to a mutating
    method name is an inner proxy that knows one property only,
    [useMutation]; the hook it holds throws the provider's error when it is
    used outside a [HonoQueryProvider], before anything is handed to the
    store, and inside one hands the store the mutation function and the
    [onSuccess] of this path and method, wrapped around the caller's. *)
Theorem mutation_hook_needs_provider
    (client : Transport) (path : list string) (props : gmap string Transport)
    (property : string) (v : Transport) (t : list Event) :
  property ∈ ["post"; "put"; "patch"; "delete"] ->
  reduce path client t = (Returned (TObject props), t) ->
  props !! ("$" +:+ property) = Some v ->
  exists get hook,
    proxy_get (createHonoQueryProxy client path) property t = (Returned (PMethodProxy get), t)
    /\ get "useMutation" = Some hook
    /\ (forall hookProperty, hookProperty <> "useMutation" -> get hookProperty = None)
    /\ (forall cb t',
        hook false cb t'
        = (Thrown (Error "useHonoQueryContext must be used within a HonoQueryProvider"), t'))
    /\ (forall cb t',
        exists o, hook true cb t' = (Returned o, t')
          /\ UseMutation.mutationFn o = createMethodMutation_mutationFn client path property
          /\ UseMutation.onSuccess o = createMethodMutation_onSuccess path cb).
Proof.
  intros Hm Hred Hkey. destruct (mutating_method_lower _ Hm) as [_ Hinc].
  assert (has_in ("$" +:+ property) (TObject props) t = (Returned true, t)) as Hhas.
  { unfold has_in. by rewrite Hkey. }
  eexists _, _. split; [|split; [|split; [|split]]].
  - unfold proxy_get. cbn [createHonoQueryProxy proxy_client proxy_path].
    rewrite proxyHandlers_get_method by done.
    rewrite (bind_returned _ _ _ _ _ Hred), (bind_returned _ _ _ _ _ Hhas). reflexivity.
  - reflexivity.
  - intros hookProperty Hne. cbn beta. apply String.eqb_neq in Hne. by rewrite Hne.
  - reflexivity.
  - intros cb t'. eexists. split; [reflexivity|]. split; reflexivity.
Qed.

Lemma mutation_hook_needs_provider_witness :
  exists get hook,
    proxy_get (createHonoQueryProxy blog ["posts"; ":id"]) "patch" []
    = (Returned (PMethodProxy get), [])
    /\ get "useMutation" = Some hook
    /\ (forall hookProperty, hookProperty <> "useMutation" -> get hookProperty = None)
    /\ (forall cb t',
        hook false cb t'
        = (Thrown (Error "useHonoQueryContext must be used within a HonoQueryProvider"), t'))
    /\ (forall cb t',
        exists o, hook true cb t' = (Returned o, t')
          /\ UseMutation.mutationFn o
             = createMethodMutation_mutationFn blog ["posts"; ":id"] "patch"
          /\ UseMutation.onSuccess o = createMethodMutation_onSuccess ["posts"; ":id"] cb).
Proof.
  assert (exists props v,
            reduce ["posts"; ":id"] blog [] = (Returned (TObject props), [])
            /\ props !! ("$" +:+ "patch") = Some v) as (props & v & Hred & Hkey).
  { eexists _, _. split; vm_compute; reflexivity. }
  assert ("patch" ∈ ["post"; "put"; "patch"; "delete"]) as Hm.
  { apply elem_of_cons. right. apply elem_of_cons. right. apply elem_of_cons. by left. }
  exact (mutation_hook_needs_provider blog ["posts"; ":id"] props "patch" v [] Hm Hred Hkey).
Defined.

(** ** The message of a dispatch error *)

(** The three fetch functions fail with [o] after the one transport call,
    when the path has resolved to [props] and the callable answers [res]. *)
Lemma fetch_functions_fail_alike (client : Transport) (path : list string)
    (props : gmap string Transport) (call : JsValue -> Exn + Response)
    (res : Response) (o : Outcome JsValue) (t : list Event) :
  reduce path client t = (Returned (TObject props), t) ->
  (unwrap res []).1 = o ->
  fetch_outcomes client path props call res o t.
Proof.
  intros Hred Ho. unfold fetch_outcomes.
  by apply (fetch_functions_answer client path props call (inr res) o t Hred).
Qed.

(** X16. For a response without the success flag, the three fetch functions
    fail with what the error constructor gives for the response and its
    payload (the parsed body, or the status text when the body does not
    parse): the [HonoQueryError] it builds, named ["HonoQueryError"] and
    carrying the response and the payload, or the constructor's own
    exception.  The constructor does build when the body does not parse
    (the message is then the status text), when the body's message is a
    string that is not empty (the message is that string), and when the body
    has no truthy message (the message is the status text). *)
Theorem dispatch_error_message
    (client : Transport) (path : list string) (props : gmap string Transport)
    (call : JsValue -> Exn + Response) (res : Response) (t : list Event) :
  reduce path client t = (Returned (TObject props), t) ->
  ok res = false ->
  (forall e, newHonoQueryError res (errorData res) = Returned e ->
      fetch_outcomes client path props call res (Thrown (RequestError e)) t
      /\ name e = "HonoQueryError" /\ response e = res /\ data e = errorData res)
  /\ (forall x, newHonoQueryError res (errorData res) = Thrown x ->
      fetch_outcomes client path props call res (Thrown x) t)
  /\ (json res = None ->
      exists e, newHonoQueryError res (errorData res) = Returned e
        /\ message e = statusText res
        /\ data e = JObj {[ "message" := JStr (statusText res) ]})
  /\ (forall body s,
      json res = Some body -> opt_get body "message" = JStr s -> s <> "" ->
      exists e, newHonoQueryError res (errorData res) = Returned e
        /\ message e = s /\ data e = body)
  /\ (forall body,
      json res = Some body -> truthy (opt_get body "message") = false ->
      exists e, newHonoQueryError res (errorData res) = Returned e
        /\ message e = statusText res /\ data e = body).
Proof.
  intros Hred Hok. split; [|split; [|split; [|split]]].
  - intros e He. split.
    + apply fetch_functions_fail_alike; [done|]. by rewrite unwrap_not_ok, He.
    + by apply newHonoQueryError_returned in He as (_ & ? & ? & ?).
  - intros x Hx. apply fetch_functions_fail_alike; [done|]. by rewrite unwrap_not_ok, Hx.
  - intros Hjson. unfold errorData, newHonoQueryError, js_or, opt_get. rewrite Hjson.
    rewrite lookup_singleton_eq. simpl. destruct (negb _); eexists; split; done.
  - intros body s Hjson Hs Hne. unfold errorData, newHonoQueryError, js_or. rewrite Hjson, Hs.
    rewrite (proj2 (truthy_string_nonempty s) Hne). cbn. eexists. split; done.
  - intros body Hjson Hf. unfold errorData, newHonoQueryError, js_or. rewrite Hjson, Hf.
    cbn. eexists. split; done.
Qed.

Lemma dispatch_error_message_witness :
  exists e : HonoQueryError,
    UseQuery.queryFn (useQuery (rejecting None) ["users"] JNull) []
    = (Thrown (RequestError e), [] ++ [EvRequest "$get" JNull])
    /\ message e = "Unprocessable Entity".
Proof.
  assert (reduce ["users"] (rejecting None) []
          = (Returned (TObject {[
               "$post" := TCallable (respond false 422 "Unprocessable Entity" None);
               "$get" := TCallable (respond false 422 "Unprocessable Entity" None) ]}), []))
    as Hred by (vm_compute; reflexivity).
  destruct (dispatch_error_message (rejecting None) ["users"] _
              (respond false 422 "Unprocessable Entity" None)
              {| ok := false; status := 422; statusText := "Unprocessable Entity";
                 json := None |} [] Hred eq_refl)
    as (Hbuilt & _ & Hnone & _).
  destruct (Hnone eq_refl) as (e & He & Hmsg & _).
  destruct (Hbuilt e He) as ((_ & Hq & _) & _).
  exists e. split; [|exact Hmsg].
  apply (Hq JNull); [vm_compute; reflexivity | reflexivity].
Defined.
